(** * notify-worker-sdk: rate-limited, fault-isolated fan-out dispatch

    A shallow embedding of the two channel adapters of the SDK,
    [FirebaseNotifier] (batch-oriented) and [WebPushNotifier]
    (concurrency-bounded), of the rate limiter they schedule their work on,
    and of the channel registry.

    The adapters are asynchronous: [send] suspends at its [await]s and is
    resumed when promises settle. One state of the embedding is the state
    of the program between two turns of the JavaScript event loop: the
    synchronous code and all the microtasks have run, and [send] is either
    suspended or finished. What moves the program from one such state to the
    next is an external event: a transport call completes, or the refill
    timer of the rate limiter fires. *)

From Stdlib Require Import ZArith Lia.
From stdpp Require Import base list strings pretty gmap.

(** ** Values shared by the adapters *)

(** [status] of a dispatch result: the strings "success" and "failed". *)
Inductive Status := success | failed.

(** The value a transport call is rejected with, as far as the [catch]
    blocks look at it: [null] or [undefined], or any other value, of which
    they read the [message] property (which may be missing). *)
Inductive Reason :=
| Nullish
| ErrorValue (message : option string).

(** What a transport call does when it completes: it resolves with a
    response (an opaque payload, kept as a string) or rejects with a
    reason. The completion of a call is an event of its own, whether the
    transport answers or fails. *)
Inductive Outcome :=
| Resolved (response : string)
| Rejected (reason : Reason).

(** [error?.message] *)
Definition reason_message (reason : Reason) : option string :=
  match reason with
  | Nullish => None
  | ErrorValue message => message
  end.

(** [error.message] throws a TypeError when [error] is [null] or
    [undefined]. *)
Definition message_throws (reason : Reason) : bool :=
  match reason with
  | Nullish => true
  | ErrorValue _ => false
  end.

(** The object pushed on [results]. [recipient] is [None] when the pushed
    value is [undefined] (an endpoint-less subscription). *)
Record DispatchResult := mkResult {
  status : Status;
  recipient : option string;
  response : option string;
  error : option string
}.

#[global] Instance Status_eq_dec : EqDecision Status.
Proof. solve_decision. Defined.

(** [x || d] on a string that may be undefined: the empty string is falsy. *)
Definition or_string (x : option string) (d : string) : string :=
  match x with
  | Some (String a s) => String a s
  | Some EmptyString | None => d
  end.

(** [x || d] on a number that may be undefined: zero is falsy. *)
Definition or_number (x : option Z) (d : Z) : Z :=
  match x with
  | Some 0%Z | None => d
  | Some n => n
  end.

Definition is_rejected (o : Outcome) : bool :=
  match o with
  | Rejected _ => true
  | Resolved _ => false
  end.

(** How many transport calls were rejected. *)
Definition rejections (os : list Outcome) : nat :=
  length (filter (λ o, is_rejected o = true) os).

(** How many results have a given status. *)
Definition count_status (st : Status) (rs : list DispatchResult) : nat :=
  length (filter (λ r, status r = st) rs).

(** A [catch] block that reads [error.message] throws in its turn when the
    call was rejected with [null] or [undefined]. *)
Definition catch_throws (o : Outcome) : bool :=
  match o with
  | Resolved _ => false
  | Rejected reason => message_throws reason
  end.

(** The [try]/[catch] around a transport call: what is pushed on [results]
    for the recipient [who], from the outcome of the call. The [error]
    field is the [message] of the reason, [undefined] when it has none. *)
Definition to_result (who : option string) (o : Outcome) : DispatchResult :=
  match o with
  | Resolved r => mkResult success who (Some r) None
  | Rejected reason => mkResult failed who None (reason_message reason)
  end.

Lemma count_status_total rs :
  count_status success rs + count_status failed rs = length rs.
Proof.
  unfold count_status. induction rs as [|r rs IH]; [done|].
  rewrite !filter_cons. destruct (status r);
    repeat case_decide; simplify_eq/=; lia.
Qed.

Lemma count_status_perm st rs rs' :
  rs ≡ₚ rs' → count_status st rs = count_status st rs'.
Proof. intros H. unfold count_status. by rewrite H. Qed.

Lemma count_failed_to_result (whos : list (option string * Outcome)) :
  count_status failed ((λ x, to_result x.1 x.2) <$> whos)
  = rejections (whos.*2).
Proof.
  unfold count_status, rejections.
  induction whos as [|[who o] whos IH]; [done|].
  rewrite !fmap_cons, !filter_cons. simpl.
  destruct o; simpl; repeat case_decide; simplify_eq/=; lia.
Qed.

(** A failed result is the one of a rejected call: it has the recipient
    of the call, no response, and the message of the reason. *)
Lemma failed_to_result (whos : list (option string * Outcome)) r :
  r ∈ (λ x, to_result x.1 x.2) <$> whos →
  status r = failed →
  ∃ who reason, (who, Rejected reason) ∈ whos ∧
    r = mkResult failed who None (reason_message reason).
Proof.
  intros Hr Hst. apply list_elem_of_fmap in Hr as ([who o] & -> & Hin).
  destruct o as [|reason]; simpl in *; [done|]. by exists who, reason.
Qed.

(** The loops below run over what is left of an array, [drop i array]. *)
Lemma drop_cons_inv {T} (l : list T) c x rest :
  x :: rest = drop c l → l !! c = Some x ∧ rest = drop (S c) l.
Proof.
  intros H.
  assert (l !! c = Some x) as Hx.
  { pose proof (lookup_drop l c 0) as Hl. rewrite <- H, Nat.add_0_r in Hl.
    by rewrite <- Hl. }
  split; [done|]. rewrite (drop_S _ _ _ Hx) in H. congruence.
Qed.

(** ** The rate limiter *)

Module RateLimiter.
Section Limiter.
Context {U : Type}.

(** Modelled from the spec: RateLimiter (core/RateLimiter is imported by
    both adapters, its source is not part of the repository files at hand).
    A token bucket with [maxPerInterval] tokens refilled every [intervalMs];
    the pending-work queue is FIFO. A queued unit is kept as the data its
    closure captured. *)
Record t := mk {
  tokens : nat;
  maxPerInterval : nat;
  intervalMs : Z;
  queue : list U
}.

(** Modelled from the spec: the constructor of RateLimiter;
    [maxPerInterval <= 0] is a configuration error and fails at once. *)
Definition create (maxPerInterval intervalMs : Z) : option t :=
  if (maxPerInterval <=? 0)%Z then None
  else Some (mk (Z.to_nat maxPerInterval) (Z.to_nat maxPerInterval) intervalMs []).

(** Modelled from the spec: RateLimiter.schedule. If a token is available,
    one is consumed and the unit runs immediately; otherwise the unit is
    enqueued. The second component lists the units that start running.
    The handle that [schedule] returns settles when the unit has completed,
    successfully or not: the adapters keep track of it by the unit. *)
Definition schedule (unit : U) (rl : t) : t * list U :=
  match tokens rl with
  | S k => (mk k (maxPerInterval rl) (intervalMs rl) (queue rl), [unit])
  | 0 => (mk 0 (maxPerInterval rl) (intervalMs rl) (queue rl ++ [unit]), [])
  end.

(** Modelled from the spec: the refill timer of RateLimiter. The available
    tokens are reset to [maxPerInterval] and the queue is drained in FIFO
    order up to the refreshed token count. *)
Definition refill (rl : t) : t * list U :=
  let released := take (maxPerInterval rl) (queue rl) in
  (mk (maxPerInterval rl - length released) (maxPerInterval rl) (intervalMs rl)
      (drop (maxPerInterval rl) (queue rl)),
   released).

(** A limiter on which no unit waits. Every limiter that [create] returns
    is idle, and so is the limiter of an adapter between two of its sends.
    The facts below follow one [send] on an adapter whose limiter is idle
    when [send] is called. *)
Definition idle (rl : t) : Prop := queue rl = [] ∧ 0 < maxPerInterval rl.

Lemma create_idle maxPerInterval intervalMs rl :
  create maxPerInterval intervalMs = Some rl → idle rl.
Proof.
  unfold create. destruct (Z.leb_spec maxPerInterval 0); [done|].
  intros [= <-]. split; simpl; [done|lia].
Qed.

End Limiter.
Arguments t : clear implicits.
End RateLimiter.

(** ** Turns of the event loop *)

Module EventLoop.

(** The external events: the refill timer fires, or the [j]-th pending
    transport call (in the order of their dispatch) completes. *)
Inductive Event :=
| Tick
| Complete (j : nat).

Section Machine.
Context {State : Type}.
Variable step : Event → State → State.
Variable enabled : State → list Event.

(** Any sequence of events, in the order they occur. *)
Fixpoint exec (trace : list Event) (s : State) : State :=
  match trace with
  | [] => s
  | e :: trace' => exec trace' (step e s)
  end.

(** One turn of a schedule [(timer, pick)]: the timer may fire first
    (whether or not a unit waits for it), then the event chosen by [pick]
    among those that can make progress occurs. *)
Definition turn (t : bool * nat) (s : State) : State :=
  let s1 := if t.1 then step Tick s else s in
  match enabled s1 with
  | [] => s1
  | e :: es => step (nth (t.2 mod length (e :: es)) (e :: es) e) s1
  end.

Fixpoint run (sched : list (bool * nat)) (s : State) : State :=
  match sched with
  | [] => s
  | t :: sched' => run sched' (turn t s)
  end.

(** Invariants and termination, for a machine whose events that make
    progress decrease a measure. *)
Section Progress.
Variable Inv : State → Prop.
Variable measure : State → nat.
Hypothesis Inv_step : ∀ e s, Inv s → Inv (step e s).
Hypothesis tick_le : ∀ s, Inv s → measure (step Tick s) ≤ measure s.
Hypothesis enabled_lt :
  ∀ e s, Inv s → e ∈ enabled s → measure (step e s) < measure s.
Hypothesis quiet_zero : ∀ s, Inv s → enabled s = [] → measure s = 0.

Lemma exec_invariant trace s : Inv s → Inv (exec trace s).
Proof.
  revert s. induction trace as [|e trace IH]; intros s Hs; simpl; auto.
Qed.

Lemma turn_chosen_enabled (k : nat) (e : Event) (es : list Event) :
  nth (k mod length (e :: es)) (e :: es) e ∈ e :: es.
Proof.
  apply list_elem_of_In, nth_In, Nat.mod_upper_bound. simpl. lia.
Qed.

Lemma turn_invariant t s : Inv s → Inv (turn t s).
Proof.
  intros Hs. unfold turn.
  assert (Inv (if t.1 then step Tick s else s)) as H1
    by (destruct (t.1); auto).
  destruct (enabled _); auto.
Qed.

Lemma run_invariant sched s : Inv s → Inv (run sched s).
Proof.
  revert s. induction sched as [|t sched IH]; intros s Hs; simpl; auto.
  apply IH, turn_invariant, Hs.
Qed.

Lemma turn_measure t s : Inv s → measure (turn t s) ≤ measure s - 1.
Proof.
  intros Hs. unfold turn.
  set (s1 := if t.1 then step Tick s else s).
  assert (Inv s1 ∧ measure s1 ≤ measure s) as [H1 Hle].
  { subst s1. destruct (t.1); auto. }
  destruct (enabled s1) as [|e es] eqn:Hen.
  - rewrite (quiet_zero s1 H1 Hen). lia.
  - pose proof (enabled_lt (nth (t.2 mod length (e :: es)) (e :: es) e) s1 H1)
      as Hlt.
    rewrite Hen in Hlt. specialize (Hlt (turn_chosen_enabled _ _ _)). lia.
Qed.

Lemma run_measure sched s :
  Inv s → measure (run sched s) ≤ measure s - length sched.
Proof.
  revert s. induction sched as [|t sched IH]; intros s Hs; simpl; [lia|].
  pose proof (IH _ (turn_invariant t s Hs)).
  pose proof (turn_measure t s Hs). lia.
Qed.

(** A schedule at least as long as the measure brings the machine to rest. *)
Lemma run_to_rest sched s :
  Inv s → measure s ≤ length sched →
  Inv (run sched s) ∧ measure (run sched s) = 0.
Proof.
  intros Hs Hlen. split; [by apply run_invariant|].
  pose proof (run_measure sched s Hs). lia.
Qed.

End Progress.

(** The events that occur along a schedule, in order: a schedule is one
    of the sequences of events. *)
Definition turn_events (t : bool * nat) (s : State) : list Event :=
  let s1 := if t.1 then step Tick s else s in
  (if t.1 then [Tick] else [])
  ++ match enabled s1 with
     | [] => []
     | e :: es => [nth (t.2 mod length (e :: es)) (e :: es) e]
     end.

Fixpoint run_events (sched : list (bool * nat)) (s : State) : list Event :=
  match sched with
  | [] => []
  | t :: sched' => turn_events t s ++ run_events sched' (turn t s)
  end.

Lemma exec_app trace trace' s :
  exec (trace ++ trace') s = exec trace' (exec trace s).
Proof. revert s. induction trace as [|e trace IH]; intros s; simpl; auto. Qed.

Lemma turn_exec t s : turn t s = exec (turn_events t s) s.
Proof.
  unfold turn, turn_events. rewrite exec_app.
  destruct (t.1); simpl; by destruct (enabled _).
Qed.

Lemma run_exec sched s : run sched s = exec (run_events sched s) s.
Proof.
  revert s. induction sched as [|t sched IH]; intros s; simpl; [done|].
  by rewrite exec_app, <- turn_exec, IH.
Qed.

End Machine.

(** How many times the refill timer fires in a trace. *)
Fixpoint ticks (trace : list Event) : nat :=
  match trace with
  | [] => 0
  | Tick :: trace' => S (ticks trace')
  | Complete _ :: trace' => ticks trace'
  end.

End EventLoop.

(** ** The batch-oriented adapter: FirebaseNotifier *)

Module FirebaseNotifier.
Import EventLoop.

(** The configuration of the adapter, without the credentials. *)
Record FirebaseNotifierConfig := mkConfig {
  maxMessagesPerSecond : option Z
}.

(** One entry of [meta]; every field is optional. *)
Record FirebaseNotificationOptions := mkOptions {
  title : option string;
  body : option string;
  data : option (gmap string string);
  dryRun : option bool
}.

(** The first argument of [messaging.send]:
    [{ token, notification: { title, body }, data }]. *)
Record Message := mkMessage {
  token : string;
  notification_title : string;
  notification_body : string;
  message_data : gmap string string
}.

(** One call of [messaging.send(message, dryRun)]. *)
Record Call := mkCall {
  message : Message;
  dry_run : bool
}.

(** The closure handed to [rateLimiter.schedule]: it captures [tokens];
    [unit_chunk] is the position of the chunk in [tokensChunks]. *)
Record ChunkUnit := mkUnit {
  unit_chunk : nat;
  unit_tokens : list string
}.

(** The closure of one pending [messaging.send]: the callback of
    [tokens.map] suspended at its [await], with its [userId] and [index]. *)
Record Pending := mkPending {
  p_chunk : nat;
  p_index : nat;
  p_userId : string
}.

(** Where [send] is: suspended at [await this.rateLimiter.schedule(...)]
    for chunk [c], or returned. *)
Inductive Main :=
| AwaitChunk (c : nat)
| Returned.

Record State := mkState {
  limiter : RateLimiter.t ChunkUnit;
  inflight : list Pending;
  sent : list Call;
  results : list DispatchResult;
  main : Main
}.

(** The limiter that the constructor creates:
    [new RateLimiter(config.maxMessagesPerSecond || 500, 1000)]. *)
Definition rateLimiter (config : FirebaseNotifierConfig)
  : option (RateLimiter.t ChunkUnit) :=
  RateLimiter.create (or_number (maxMessagesPerSecond config) 500) 1000.

(** [array.slice(i, j)] for [i <= j]. *)
Definition slice {T} (array : list T) (i j : nat) : list T :=
  take (j - i) (drop i array).

(** The loop of [chunkArray] from index [i] on. With a positive
    [chunkSize] the loop body runs at most [length array] times, which is
    the fuel [chunkArray] gives it ([chunk_loop_fuel]); [send] calls
    [chunkArray] with 500. With [chunkSize] zero the loop of the source
    does not end. *)
Fixpoint chunk_loop {T} (fuel : nat) (array : list T) (chunkSize i : nat)
  : list (list T) :=
  match fuel with
  | 0 => []
  | S fuel' =>
      if i <? length array
      then slice array i (i + chunkSize)
             :: chunk_loop fuel' array chunkSize (i + chunkSize)
      else []
  end.

Definition chunkArray {T} (array : list T) (chunkSize : nat) : list (list T) :=
  chunk_loop (length array) array chunkSize 0.

(** With a positive [chunkSize], the loop ends before its fuel does: any
    two amounts of fuel that cover what is left of the array give the same
    chunks. *)
Lemma chunk_loop_fuel {T} (array : list T) chunkSize fuel fuel' i :
  0 < chunkSize → length array - i ≤ fuel → length array - i ≤ fuel' →
  chunk_loop fuel array chunkSize i = chunk_loop fuel' array chunkSize i.
Proof.
  intros Hpos. revert fuel' i.
  induction fuel as [|fuel IH]; intros [|fuel'] i Hf Hf'; simpl; try done.
  - destruct (Nat.ltb_spec i (length array)); [lia|done].
  - destruct (Nat.ltb_spec i (length array)); [lia|done].
  - destruct (Nat.ltb_spec i (length array)); [|done].
    f_equal. apply IH; lia.
Qed.

Lemma slice_take_drop {T} (array : list T) (i chunkSize : nat) :
  slice array i (i + chunkSize) = take chunkSize (drop i array).
Proof. unfold slice. f_equal. lia. Qed.

Lemma chunk_loop_concat {T} (array : list T) chunkSize fuel i :
  0 < chunkSize → length array - i ≤ fuel →
  concat (chunk_loop fuel array chunkSize i) = drop i array.
Proof.
  intros Hpos. revert i.
  induction fuel as [|fuel IH]; intros i Hfuel; simpl.
  - symmetry. apply drop_ge. lia.
  - destruct (Nat.ltb_spec i (length array)) as [Hlt|Hge]; simpl.
    + rewrite IH by lia. rewrite slice_take_drop.
      rewrite <- drop_drop. apply take_drop.
    + symmetry. apply drop_ge. lia.
Qed.

(** The chunks, in order, make up the array again. *)
Lemma chunkArray_concat {T} (array : list T) chunkSize :
  0 < chunkSize → concat (chunkArray array chunkSize) = array.
Proof.
  intros Hpos. unfold chunkArray. rewrite chunk_loop_concat by lia. done.
Qed.

Lemma chunk_loop_chunk_length {T} (array : list T) chunkSize fuel i :
  Forall (λ chunk, length chunk ≤ chunkSize) (chunk_loop fuel array chunkSize i).
Proof.
  revert i. induction fuel as [|fuel IH]; intros i; simpl; [constructor|].
  destruct (i <? length array); constructor; auto.
  rewrite slice_take_drop, length_take. lia.
Qed.

(** No chunk is longer than [chunkSize]. *)
Lemma chunkArray_chunk_length {T} (array : list T) chunkSize :
  Forall (λ chunk, length chunk ≤ chunkSize) (chunkArray array chunkSize).
Proof. apply chunk_loop_chunk_length. Qed.

Lemma chunk_loop_length {T} (array : list T) chunkSize fuel i :
  length (chunk_loop fuel array chunkSize i) ≤ fuel.
Proof.
  revert i. induction fuel as [|fuel IH]; intros i; simpl; [lia|].
  destruct (i <? length array); simpl; [|lia]. specialize (IH (i + chunkSize)). lia.
Qed.

Lemma chunkArray_length {T} (array : list T) chunkSize :
  length (chunkArray array chunkSize) ≤ length array.
Proof. apply chunk_loop_length. Qed.

Section Send.
(** The transport, [admin.messaging().send]. *)
Variable messaging_send : Message → bool → Outcome.
(** The arguments of [send]; [meta] is optional. *)
Variable userIds : list string.
Variable meta : option (list FirebaseNotificationOptions).

Definition tokensChunks : list (list string) := chunkArray userIds 500.

(** The payload and the dry-run flag built for [userId] from [userMeta]. *)
Definition build_call (userId : string)
    (userMeta : option FirebaseNotificationOptions) : Call :=
  mkCall
    (mkMessage userId
       (or_string (userMeta ≫= title) "Default Notification")
       (or_string (userMeta ≫= body) EmptyString)
       (default ∅ (userMeta ≫= data)))
    (default false (userMeta ≫= dryRun)).

(** [const userMeta = meta ? meta[index] : undefined], then the call. *)
Definition call_of (p : Pending) : Call :=
  build_call (p_userId p) (meta ≫= (λ m, m !! p_index p)).

(** What the callback pushes on [results] when its call has completed. *)
Definition result_of (p : Pending) : DispatchResult :=
  to_result (Some (p_userId p))
            (messaging_send (message (call_of p)) (dry_run (call_of p))).

(** [tokens.map(async (userId, index) => ...)]: each callback runs up to
    its [await messaging.send(...)]. *)
Definition slots (u : ChunkUnit) : list Pending :=
  imap (mkPending (unit_chunk u)) (unit_tokens u).

Definition launch (u : ChunkUnit) (s : State) : State :=
  mkState (limiter s) (inflight s ++ slots u)
          (sent s ++ map call_of (slots u)) (results s) (main s).

(** [Promise.all] of the callbacks of chunk [c] is resolved when none of
    them is pending any more. *)
Definition unit_done (c : nat) (s : State) : bool :=
  forallb (λ p, negb (p_chunk p =? c)) (inflight s).

(** The [for ... of tokensChunks] loop from chunk [c] on, up to the point
    where [send] suspends or returns. *)
Fixpoint loop (rest : list (list string)) (c : nat) (s : State) : State :=
  match rest with
  | [] => mkState (limiter s) (inflight s) (sent s) (results s) Returned
  | tokens :: rest' =>
      let u := mkUnit c tokens in
      let '(rl, started) := RateLimiter.schedule u (limiter s) in
      let s1 := mkState rl (inflight s) (sent s) (results s) (AwaitChunk c) in
      match started with
      | [] => s1
      | _ :: _ =>
          let s2 := launch u s1 in
          if unit_done c s2 then loop rest' (S c) s2 else s2
      end
  end.

(** The handle of the unit of chunk [c] resolves: [send] goes on if that
    is what it awaits. *)
Definition resume (c : nat) (s : State) : State :=
  match main s with
  | AwaitChunk c' =>
      if decide (c' = c) then loop (drop (S c) tokensChunks) (S c) s else s
  | Returned => s
  end.

(** The limiter releases a queued unit. *)
Definition start (s : State) (u : ChunkUnit) : State :=
  let s1 := launch u s in
  if unit_done (unit_chunk u) s1 then resume (unit_chunk u) s1 else s1.

Definition step (e : Event) (s : State) : State :=
  match e with
  | Tick =>
      let '(rl, released) := RateLimiter.refill (limiter s) in
      foldl start
        (mkState rl (inflight s) (sent s) (results s) (main s)) released
  | Complete j =>
      match inflight s !! j with
      | None => s
      | Some p =>
          let s1 := mkState (limiter s) (delete j (inflight s)) (sent s)
                            (results s ++ [result_of p]) (main s) in
          if unit_done (p_chunk p) s1 then resume (p_chunk p) s1 else s1
      end
  end.

(** The events that make progress: the timer when a unit waits for it,
    the completion of any pending call. *)
Definition enabled (s : State) : list Event :=
  (match RateLimiter.queue (limiter s) with [] => [] | _ :: _ => [Tick] end)
  ++ map Complete (seq 0 (length (inflight s))).

(** [send(userIds, meta)] on an adapter whose limiter is [rl], up to its
    first suspension. *)
Definition send (rl : RateLimiter.t ChunkUnit) : State :=
  loop tokensChunks 0 (mkState rl [] [] [] (AwaitChunk 0)).

(** *** What every reachable state looks like *)

Definition units : list ChunkUnit := imap mkUnit tokensChunks.

Definition chunk_calls (u : ChunkUnit) : list Call := map call_of (slots u).

Definition chunk_results (u : ChunkUnit) : list DispatchResult :=
  map result_of (slots u).

(** [rs] holds the results of the chunks [us], chunk after chunk, the
    results of one chunk in any order. *)
Definition chunk_ordered (us : list ChunkUnit) (rs : list DispatchResult)
  : Prop :=
  ∃ rss, rs = concat rss ∧ Forall2 (λ r u, r ≡ₚ chunk_results u) rss us.

(** [send] is about to submit chunk [c]: the earlier chunks are complete. *)
Definition at_chunk (c : nat) (s : State) : Prop :=
  0 < RateLimiter.maxPerInterval (limiter s) ∧
  RateLimiter.queue (limiter s) = [] ∧
  inflight s = [] ∧
  sent s = take c units ≫= chunk_calls ∧
  chunk_ordered (take c units) (results s).

Definition Inv (s : State) : Prop :=
  0 < RateLimiter.maxPerInterval (limiter s) ∧
  match main s with
  | AwaitChunk c =>
      ∃ tokens, tokensChunks !! c = Some tokens ∧
        ((RateLimiter.queue (limiter s) = [mkUnit c tokens] ∧
          inflight s = [] ∧
          sent s = take c units ≫= chunk_calls ∧
          chunk_ordered (take c units) (results s))
         ∨
         (RateLimiter.queue (limiter s) = [] ∧
          inflight s ≠ [] ∧
          sent s = take (S c) units ≫= chunk_calls ∧
          ∃ prev done,
            results s = prev ++ map result_of done ∧
            chunk_ordered (take c units) prev ∧
            inflight s ++ done ≡ₚ slots (mkUnit c tokens)))
  | Returned =>
      RateLimiter.queue (limiter s) = [] ∧
      inflight s = [] ∧
      sent s = units ≫= chunk_calls ∧
      chunk_ordered units (results s)
  end.

Lemma units_lookup c tokens :
  tokensChunks !! c = Some tokens → units !! c = Some (mkUnit c tokens).
Proof. intros H. unfold units. by rewrite list_lookup_imap, H. Qed.

Lemma units_take_S c tokens :
  tokensChunks !! c = Some tokens →
  take (S c) units = take c units ++ [mkUnit c tokens].
Proof. intros H. by apply take_S_r, units_lookup. Qed.

Lemma slots_chunk u p : p ∈ slots u → p_chunk p = unit_chunk u.
Proof.
  unfold slots. intros Hp. apply list_elem_of_lookup in Hp as [i Hi].
  rewrite list_lookup_imap in Hi. destruct (unit_tokens u !! i); by simplify_eq/=.
Qed.

Lemma slots_length u : length (slots u) = length (unit_tokens u).
Proof. unfold slots. by rewrite length_imap. Qed.

(** When every pending call belongs to chunk [c], the chunk is done
    exactly when no call is pending. *)
Lemma unit_done_own c s :
  (∀ p, p ∈ inflight s → p_chunk p = c) →
  unit_done c s = true ↔ inflight s = [].
Proof.
  intros Hown. unfold unit_done. destruct (inflight s) as [|p l]; [done|].
  split; [|done]. simpl. rewrite (Hown p) by left. by rewrite Nat.eqb_refl.
Qed.

Lemma chunk_ordered_snoc us prev u rs :
  chunk_ordered us prev → rs ≡ₚ chunk_results u →
  chunk_ordered (us ++ [u]) (prev ++ rs).
Proof.
  intros (rss & -> & Hrss) Hrs. exists (rss ++ [rs]). split.
  - rewrite concat_app. simpl. by rewrite app_nil_r.
  - apply Forall2_app; [done|]. by constructor.
Qed.

Lemma fb_loop_Inv rest c s :
  rest = drop c tokensChunks → at_chunk c s → Inv (loop rest c s).
Proof.
  revert c s. induction rest as [|tokens rest IH];
    intros c s Hrest (Hmax & Hq & Hin & Hsent & Hres).
  - assert (length tokensChunks ≤ c) as Hc.
    { pose proof (length_drop tokensChunks c) as Hl.
      rewrite <- Hrest in Hl. simpl in Hl. lia. }
    rewrite take_ge in Hsent, Hres by (unfold units; rewrite length_imap; lia).
    simpl. by split.
  - apply drop_cons_inv in Hrest as [Hc Hrest]. simpl.
    unfold RateLimiter.schedule. rewrite Hq.
    destruct (RateLimiter.tokens (limiter s)) as [|k].
    + split; [done|]. simpl. exists tokens. split; [done|]. left. by rewrite Hin.
    + simpl. rewrite Hin. simpl.
      set (s2 := launch _ _).
      destruct (unit_done c s2) eqn:Hdone.
      * apply unit_done_own in Hdone; last first.
        { intros p Hp. apply (slots_chunk (mkUnit c tokens)) in Hp. done. }
        simpl in Hdone.
        apply IH; [done|]. subst s2. unfold launch, at_chunk. simpl.
        rewrite Hdone. simpl.
        rewrite (units_take_S c tokens Hc).
        repeat split; try done.
        -- rewrite bind_app. simpl. unfold chunk_calls at 2.
           rewrite Hdone. simpl. by rewrite Hsent, !app_nil_r.
        -- rewrite <- (app_nil_r (results s)).
           apply chunk_ordered_snoc; [done|].
           unfold chunk_results. by rewrite Hdone.
      * split; [done|]. simpl. exists tokens. split; [done|]. right.
        split; [done|]. split.
        { intros Hnil. apply not_true_iff_false in Hdone. apply Hdone.
          unfold unit_done. subst s2. simpl. simpl in Hnil. by rewrite Hnil. }
        split.
        { rewrite (units_take_S c tokens Hc), bind_app. simpl.
          by rewrite Hsent, app_nil_r. }
        exists (results s), []. simpl. rewrite !app_nil_r. done.
Qed.

Lemma start_Inv c tokens s :
  main s = AwaitChunk c → tokensChunks !! c = Some tokens →
  at_chunk c s → Inv (start s (mkUnit c tokens)).
Proof.
  intros Hmain Hc (Hmax & Hq & Hin & Hsent & Hres). unfold start. simpl.
  set (s1 := launch _ _).
  assert (sent s1 = take (S c) units ≫= chunk_calls) as Hsent1.
  { subst s1. simpl. rewrite (units_take_S c tokens Hc), bind_app. simpl.
    by rewrite Hsent, app_nil_r. }
  destruct (unit_done c s1) eqn:Hdone.
  - apply unit_done_own in Hdone; last first.
    { intros p Hp. subst s1. simpl in Hp. rewrite Hin in Hp.
      by apply (slots_chunk (mkUnit c tokens)) in Hp. }
    unfold resume. replace (main s1) with (AwaitChunk c) by done.
    rewrite decide_True by done. apply fb_loop_Inv; [done|].
    assert (slots (mkUnit c tokens) = []) as Hnil.
    { subst s1. simpl in Hdone. by rewrite Hin in Hdone. }
    repeat split; try done.
    subst s1. simpl. rewrite (units_take_S c tokens Hc).
    rewrite <- (app_nil_r (results s)). apply chunk_ordered_snoc; [done|].
    unfold chunk_results. by rewrite Hnil.
  - split; [done|]. replace (main s1) with (AwaitChunk c) by done.
    exists tokens. split; [done|]. right. split; [done|]. split.
    { intros Hnil. apply not_true_iff_false in Hdone. apply Hdone.
      unfold unit_done. by rewrite Hnil. }
    split; [done|]. exists (results s), []. simpl. rewrite !app_nil_r.
    subst s1. simpl. by rewrite Hin.
Qed.

Lemma fb_Inv_step e s : Inv s → Inv (step e s).
Proof.
  intros [Hmax Hs]. destruct e as [|j]; simpl.
  - destruct (main s) as [c|] eqn:Hmain.
    + destruct Hs as (tokens & Hc & [(Hq & Hin & Hsent & Hres)|(Hq & Hin & Hsent & Hres)]).
      * rewrite Hq.
        destruct (RateLimiter.maxPerInterval (limiter s)) as [|k] eqn:Hk; [lia|].
        simpl. rewrite take_nil, drop_nil. simpl.
        apply start_Inv; [done..|]. repeat split; simpl; try done.
      * rewrite Hq, take_nil, drop_nil. simpl. split; [done|]. simpl.
        exists tokens. split; [done|]. right. done.
    + destruct Hs as (Hq & Hin & Hsent & Hres).
      rewrite Hq, take_nil, drop_nil. simpl. split; [done|]. simpl.
      done.
  - destruct (inflight s !! j) as [p|] eqn:Hj; [|by split].
    destruct (main s) as [c|] eqn:Hmain; last first.
    { destruct Hs as (_ & Hin & _). by rewrite Hin in Hj. }
    destruct Hs as (tokens & Hc & [(_ & Hin & _)|(Hq & Hin & Hsent & Hres)]).
    { by rewrite Hin in Hj. }
    destruct Hres as (prev & done & Hres & Hprev & Hperm).
    assert (delete j (inflight s) ++ (done ++ [p])
              ≡ₚ slots (mkUnit c tokens)) as Hperm'.
    { rewrite app_assoc, <- Permutation_cons_append, <- Hperm.
      rewrite app_comm_cons. apply Permutation_app_tail.
      symmetry. by apply delete_Permutation. }
    assert (p_chunk p = c) as Hp.
    { apply (slots_chunk (mkUnit c tokens)). rewrite <- Hperm.
      apply elem_of_app. left. by eapply list_elem_of_lookup_2. }
    rewrite Hp. set (s1 := mkState _ _ _ _ _).
    destruct (unit_done c s1) eqn:Hdone.
    + apply unit_done_own in Hdone; last first.
      { intros q Hq'. apply (slots_chunk (mkUnit c tokens)). rewrite <- Hperm'.
        apply elem_of_app. by left. }
      unfold resume. replace (main s1) with (AwaitChunk c) by done.
      rewrite decide_True by done. apply fb_loop_Inv; [done|].
      repeat split; try done. subst s1. simpl. simpl in Hdone.
      rewrite Hdone in Hperm'. simpl in Hperm'.
      rewrite (units_take_S c tokens Hc), Hres, <- app_assoc.
      apply chunk_ordered_snoc; [done|].
      unfold chunk_results. rewrite <- Hperm', map_app. done.
    + split; [done|]. replace (main s1) with (AwaitChunk c) by done.
      exists tokens. split; [done|]. right. split; [done|]. split.
      { intros Hnil. apply not_true_iff_false in Hdone. apply Hdone.
        unfold unit_done. by rewrite Hnil. }
      split; [done|]. exists prev, (done ++ [p]). split; [|done].
      subst s1. simpl. by rewrite Hres, map_app, app_assoc.
Qed.

(** *** Termination: what is left to do *)

(** A chunk still to be submitted or waiting in the limiter costs one
    event for its release and one for each of its tokens. *)
Definition weight (tokens : list string) : nat := S (length tokens).

Definition queued_weight (s : State) : nat :=
  sum_list_with (λ u, weight (unit_tokens u)) (RateLimiter.queue (limiter s)).

Definition remaining (s : State) : list (list string) :=
  match main s with
  | AwaitChunk c => drop (S c) tokensChunks
  | Returned => []
  end.

Definition measure (s : State) : nat :=
  length (inflight s) + queued_weight s + sum_list_with weight (remaining s).

Lemma fb_loop_measure rest c s :
  rest = drop c tokensChunks →
  measure (loop rest c s)
  ≤ length (inflight s) + queued_weight s + sum_list_with weight rest.
Proof.
  revert c s. induction rest as [|tokens rest IH]; intros c s Hrest.
  - unfold measure, queued_weight, remaining. simpl. lia.
  - apply drop_cons_inv in Hrest as [Hc Hrest]. simpl.
    unfold RateLimiter.schedule.
    destruct (RateLimiter.tokens (limiter s)) as [|k].
    + unfold measure, queued_weight, remaining. simpl.
      rewrite sum_list_with_app, <- Hrest. simpl. unfold weight. lia.
    + set (s2 := launch _ _).
      assert (length (inflight s2) = length (inflight s) + length tokens) as Hl.
      { subst s2. simpl. by rewrite length_app, slots_length. }
      destruct (unit_done c s2).
      * etrans; [by apply IH|]. rewrite Hl. unfold queued_weight, weight.
        simpl. lia.
      * unfold measure. rewrite Hl. unfold queued_weight, remaining, weight.
        simpl. rewrite <- Hrest. lia.
Qed.

Lemma fb_resume_measure c s : measure (resume c s) ≤ measure s.
Proof.
  unfold resume. destruct (main s) as [c'|] eqn:Hmain; [|done].
  destruct (decide (c' = c)) as [->|]; [|done].
  etrans; [by apply fb_loop_measure|]. unfold measure, remaining.
  by rewrite Hmain.
Qed.

Lemma start_measure s u :
  measure (start s u) ≤ measure s + length (unit_tokens u).
Proof.
  unfold start. set (s1 := launch u s).
  assert (measure s1 = measure s + length (unit_tokens u)) as <-.
  { unfold measure, queued_weight, remaining. subst s1. simpl.
    rewrite length_app, slots_length. lia. }
  destruct (unit_done _ _); [apply fb_resume_measure|done].
Qed.

Lemma starts_measure us s :
  measure (foldl start s us) + length us
  ≤ measure s + sum_list_with (λ u, weight (unit_tokens u)) us.
Proof.
  revert s. induction us as [|u us IH]; intros s; simpl; [lia|].
  specialize (IH (start s u)). pose proof (start_measure s u).
  unfold weight in *. lia.
Qed.

Lemma fb_tick_measure s :
  measure (step Tick s)
  + length (take (RateLimiter.maxPerInterval (limiter s))
                 (RateLimiter.queue (limiter s)))
  ≤ measure s.
Proof.
  simpl. etrans; [apply starts_measure|].
  unfold measure at 2. unfold queued_weight.
  rewrite <- (take_drop (RateLimiter.maxPerInterval (limiter s))
                        (RateLimiter.queue (limiter s))) at 4.
  rewrite sum_list_with_app. unfold measure, queued_weight, remaining. simpl.
  lia.
Qed.

Lemma fb_complete_measure j p s :
  inflight s !! j = Some p → measure (step (Complete j) s) < measure s.
Proof.
  intros Hj. simpl. rewrite Hj. set (s1 := mkState _ _ _ _ _).
  assert (measure s1 < measure s) as Hlt.
  { unfold measure, queued_weight, remaining. subst s1. simpl.
    rewrite length_delete by eauto.
    apply lookup_lt_Some in Hj. lia. }
  destruct (unit_done _ _); [|done].
  pose proof (fb_resume_measure (p_chunk p) s1). lia.
Qed.

Lemma fb_enabled_measure e s :
  Inv s → e ∈ enabled s → measure (step e s) < measure s.
Proof.
  intros [Hmax _] He. unfold enabled in He. apply elem_of_app in He as [He|He].
  - destruct (RateLimiter.queue (limiter s)) as [|u q] eqn:Hq; [by inversion He|].
    apply list_elem_of_singleton in He as ->.
    pose proof (fb_tick_measure s) as Ht. rewrite Hq in Ht.
    rewrite length_take in Ht. simpl length in Ht. lia.
  - apply list_elem_of_fmap in He as (j & -> & Hj).
    apply elem_of_seq in Hj.
    destruct (lookup_lt_is_Some_2 (inflight s) j) as [p Hp]; [lia|].
    by eapply fb_complete_measure.
Qed.

Lemma fb_quiet_measure s : Inv s → enabled s = [] → measure s = 0.
Proof.
  intros [_ Hs] Hen. unfold enabled in Hen.
  apply app_eq_nil in Hen as [Hq Hin].
  apply fmap_nil_inv in Hin.
  assert (inflight s = []) as Hin' by (by destruct (inflight s)).
  unfold measure, queued_weight, remaining.
  destruct (main s).
  - destruct Hs as (tokens & _ & [(Hq' & _)|(_ & Hne & _)]); [|done].
    by rewrite Hq' in Hq.
  - destruct Hs as (-> & -> & _). done.
Qed.

Lemma fb_rest_Returned s : Inv s → measure s = 0 → main s = Returned.
Proof.
  intros [_ Hs] Hm. unfold measure, queued_weight in Hm.
  destruct (main s); [|done].
  destruct Hs as (tokens & _ & [(Hq & _)|(_ & Hne & _)]).
  - rewrite Hq in Hm. simpl in Hm. unfold weight in Hm. lia.
  - destruct (inflight s); [done|]. simpl in Hm. lia.
Qed.

(** *** The whole request *)

(** The calls of a request, recipient after recipient. *)
Definition plan : list Pending := units ≫= slots.

Lemma weight_sum (chunks : list (list string)) :
  sum_list_with weight chunks = length chunks + length (concat chunks).
Proof.
  induction chunks as [|t chunks IH]; simpl; [done|].
  rewrite length_app, IH. unfold weight. lia.
Qed.

Lemma fb_send_Inv rl : RateLimiter.idle rl → Inv (send rl).
Proof.
  intros [Hq Hmax]. apply fb_loop_Inv; [done|].
  repeat split; simpl; try done. exists []. split; [done|]. constructor.
Qed.

Lemma fb_send_measure rl : RateLimiter.idle rl → measure (send rl) ≤ 2 * length userIds.
Proof.
  intros [Hq Hmax]. unfold send. etrans; [by apply fb_loop_measure|].
  unfold queued_weight. simpl. rewrite Hq. simpl.
  rewrite weight_sum. unfold tokensChunks.
  rewrite chunkArray_concat by lia.
  pose proof (chunkArray_length userIds 500). lia.
Qed.

Lemma chunk_ordered_plan us rs :
  chunk_ordered us rs → rs ≡ₚ map result_of (us ≫= slots).
Proof.
  intros (rss & -> & Hrss). induction Hrss as [|r u rss us Hr _ IH]; [done|].
  simpl. rewrite map_app. by apply Permutation_app.
Qed.

(** Whatever the order in which the calls complete and whenever the timer
    fires, [send] returns: every call has completed, and the results are
    those of the plan, chunk after chunk. *)
Lemma fb_send_completes rl sched :
  RateLimiter.idle rl → 2 * length userIds ≤ length sched →
  let s := run step enabled sched (send rl) in
  main s = Returned ∧ inflight s = [] ∧
  sent s = map call_of plan ∧
  chunk_ordered units (results s) ∧
  results s ≡ₚ map result_of plan.
Proof.
  intros Hrl Hlen s.
  destruct (run_to_rest step enabled Inv measure fb_Inv_step) with (sched := sched)
    (s := send rl) as [HInv Hm].
  - intros s' Hs'. pose proof (fb_tick_measure s'). lia.
  - apply fb_enabled_measure.
  - apply fb_quiet_measure.
  - by apply fb_send_Inv.
  - pose proof (fb_send_measure rl Hrl). lia.
  - fold s in HInv, Hm. pose proof (fb_rest_Returned s HInv Hm) as Hret.
    destruct HInv as [_ Hs]. rewrite Hret in Hs.
    destruct Hs as (_ & Hin & Hsent & Hres). repeat split; try done.
    + rewrite Hsent. unfold plan, chunk_calls.
      generalize units. intros us. induction us as [|u us IH]; [done|].
      rewrite !bind_cons, map_app. by f_equal.
    + by apply chunk_ordered_plan.
Qed.

(** [send] returns along every schedule, in a state that satisfies [P]. *)
Definition always_returns (P : State → Prop) (rl : RateLimiter.t ChunkUnit)
  : Prop :=
  ∀ sched, 2 * length userIds ≤ length sched →
    let s := run step enabled sched (send rl) in
    main s = Returned ∧ P s.

Lemma fb_send_always_returns rl :
  RateLimiter.idle rl →
  always_returns (λ s, inflight s = [] ∧ sent s = map call_of plan ∧
                       chunk_ordered units (results s) ∧
                       results s ≡ₚ map result_of plan) rl.
Proof. intros Hrl sched Hlen. by apply fb_send_completes. Qed.

Lemma fb_always_returns_impl (P Q : State → Prop) rl :
  (∀ s, P s → Q s) → always_returns P rl → always_returns Q rl.
Proof.
  intros HPQ HP sched Hlen. destruct (HP sched Hlen) as [? ?]. split; auto.
Qed.

(** Every state that events can lead to satisfies the invariant. *)
Lemma fb_reachable_Inv rl trace :
  RateLimiter.idle rl → Inv (exec step trace (send rl)).
Proof.
  intros Hrl. apply (exec_invariant step Inv fb_Inv_step). by apply fb_send_Inv.
Qed.

(** [send] returns in a state that satisfies [P]: along every schedule it
    gets to [return results], and whenever it has returned, and so when it
    returns, the state satisfies [P]. *)
Definition returns (P : State → Prop) (rl : RateLimiter.t ChunkUnit)
  : Prop :=
  (∀ sched, 2 * length userIds ≤ length sched →
     main (run step enabled sched (send rl)) = Returned) ∧
  (∀ trace, let s := exec step trace (send rl) in main s = Returned → P s).

(** When [send] returns every call has completed, and the results are
    those of the plan, chunk after chunk. *)
Lemma fb_Returned_results s :
  Inv s → main s = Returned →
  inflight s = [] ∧ RateLimiter.queue (limiter s) = [] ∧
  sent s = map call_of plan ∧
  chunk_ordered units (results s) ∧
  results s ≡ₚ map result_of plan.
Proof.
  intros [_ Hs] Hret. rewrite Hret in Hs.
  destruct Hs as (Hq & Hin & Hsent & Hres). repeat split; try done.
  - rewrite Hsent. unfold plan, chunk_calls.
    generalize units. intros us. induction us as [|u us IH]; [done|].
    rewrite !bind_cons, map_app. by f_equal.
  - by apply chunk_ordered_plan.
Qed.

Lemma fb_send_returns rl :
  RateLimiter.idle rl →
  returns (λ s, inflight s = [] ∧ sent s = map call_of plan ∧
                chunk_ordered units (results s) ∧
                results s ≡ₚ map result_of plan) rl.
Proof.
  intros Hrl. split.
  - intros sched Hlen. by apply fb_send_completes.
  - intros trace s Hret.
    by destruct (fb_Returned_results s (fb_reachable_Inv rl trace Hrl) Hret)
      as (? & ? & ? & ? & ?).
Qed.

Lemma fb_returns_impl (P Q : State → Prop) rl :
  (∀ s, P s → Q s) → returns P rl → returns Q rl.
Proof.
  intros HPQ [Hlive Hsafe]. split; [done|].
  intros trace s Hret. by apply HPQ, Hsafe.
Qed.

(** In particular the state at the end of a schedule satisfies [P]. *)
Lemma fb_returns_always_returns (P : State → Prop) rl :
  returns P rl → always_returns P rl.
Proof.
  intros [Hlive Hsafe] sched Hlen s. split; [by apply Hlive|].
  subst s. rewrite run_exec. apply Hsafe. rewrite <- run_exec. by apply Hlive.
Qed.

Lemma slots_userIds u : p_userId <$> slots u = unit_tokens u.
Proof.
  unfold slots. rewrite fmap_imap.
  rewrite (imap_ext _ (const id)) by done. by rewrite imap_const, list_fmap_id.
Qed.

Lemma units_tokens : unit_tokens <$> units = tokensChunks.
Proof.
  unfold units. rewrite fmap_imap.
  rewrite (imap_ext _ (const id)) by done. by rewrite imap_const, list_fmap_id.
Qed.

(** The plan has one call for each recipient, in the order of [userIds]. *)
Lemma plan_userIds : p_userId <$> plan = userIds.
Proof.
  assert (∀ us, p_userId <$> (us ≫= slots) = concat (unit_tokens <$> us)) as H.
  { induction us as [|u us IH]; [done|].
    rewrite bind_cons, fmap_app, IH, slots_userIds. done. }
  unfold plan. rewrite H, units_tokens. unfold tokensChunks.
  apply chunkArray_concat. lia.
Qed.

Lemma fb_plan_length : length plan = length userIds.
Proof. by rewrite <- plan_userIds, length_fmap. Qed.

Lemma result_of_recipient p : recipient (result_of p) = Some (p_userId p).
Proof. unfold result_of. by destruct (messaging_send _ _). Qed.

(** The pending closures of the chunks from chunk [k] on, [chunkSize]
    recipients to a chunk: the recipient at position [i] of the array is in
    chunk [i / chunkSize], with index [i mod chunkSize]. *)
Lemma chunk_loop_slots (array : list string) chunkSize fuel k :
  0 < chunkSize → length array - k * chunkSize ≤ fuel →
  imap (λ j, mkUnit (k + j)) (chunk_loop fuel array chunkSize (k * chunkSize))
    ≫= slots
  = imap (λ j userId, mkPending ((k * chunkSize + j) / chunkSize)
                                ((k * chunkSize + j) mod chunkSize) userId)
         (drop (k * chunkSize) array).
Proof.
  intros Hpos. revert k. induction fuel as [|fuel IH]; intros k Hfuel.
  - rewrite drop_ge by lia. done.
  - simpl. destruct (Nat.ltb_spec (k * chunkSize) (length array)) as [Hlt|Hge];
      [|by rewrite drop_ge by lia].
    rewrite slice_take_drop.
    replace (k * chunkSize + chunkSize) with (S k * chunkSize) by lia.
    rewrite imap_cons, bind_cons.
    rewrite (imap_ext _ (λ j, mkUnit (S k + j)))
      by (intros; simpl; f_equal; lia).
    rewrite IH by lia.
    rewrite <- (take_drop chunkSize (drop (k * chunkSize) array)) at 2.
    rewrite imap_app, drop_drop.
    replace (k * chunkSize + chunkSize) with (S k * chunkSize) by lia.
    f_equal.
    + unfold slots. simpl. rewrite Nat.add_0_r. apply imap_ext.
      intros j userId Hj. apply lookup_lt_Some in Hj.
      rewrite length_take in Hj.
      rewrite Nat.div_add_l, Nat.div_small, Nat.add_0_r by lia.
      rewrite Nat.add_comm, Nat.Div0.mod_add, Nat.mod_small by lia. done.
    + apply imap_ext. intros j userId Hj. apply lookup_lt_Some in Hj.
      rewrite length_drop in Hj.
      rewrite length_take, length_drop.
      replace (k * chunkSize + (chunkSize `min` (length array - k * chunkSize) + j))
        with (S k * chunkSize + j) by lia.
      done.
Qed.

(** The plan, position by position: the callback for the recipient at
    position [i] of [userIds] has [index = i mod 500]. *)
Lemma plan_positions :
  plan = imap (λ i userId, mkPending (i / 500) (i mod 500) userId) userIds.
Proof.
  unfold plan, units, tokensChunks, chunkArray.
  apply (chunk_loop_slots userIds 500 (length userIds) 0); lia.
Qed.

(** The call made for the recipient at position [i] is built from the
    entry [i mod 500] of [meta]. *)
Lemma call_at_position i userId :
  userIds !! i = Some userId →
  (call_of <$> plan) !! i
  = Some (build_call userId (meta ≫= (λ m, m !! (i mod 500)))).
Proof.
  intros Hi. rewrite plan_positions, list_lookup_fmap, list_lookup_imap, Hi.
  done.
Qed.

(** While [send] awaits the unit of chunk [c], only this chunk is in the
    limiter or in flight; the chunks before it are complete, their results
    recorded chunk after chunk; no call of a later chunk has been made. *)
Definition one_chunk_at_a_time (s : State) : Prop :=
  length (inflight s) ≤ 500 ∧
  ∀ c, main s = AwaitChunk c →
    (∀ p, p ∈ inflight s → p_chunk p = c) ∧
    (∀ u, u ∈ RateLimiter.queue (limiter s) → unit_chunk u = c) ∧
    (sent s = take c units ≫= chunk_calls ∨
     sent s = take (S c) units ≫= chunk_calls) ∧
    ∃ prev cur,
      results s = prev ++ cur ∧
      chunk_ordered (take c units) prev ∧
      length cur + length (inflight s) ≤ 500.

Lemma Inv_one_chunk_at_a_time s : Inv s → one_chunk_at_a_time s.
Proof.
  intros [_ Hs]. unfold one_chunk_at_a_time.
  destruct (main s) as [c|] eqn:Hmain; last first.
  { destruct Hs as (_ & -> & _). split; [simpl; lia|done]. }
  destruct Hs as (tokens & Hc & Hs).
  assert (length tokens ≤ 500) as Htok.
  { pose proof (chunkArray_chunk_length userIds 500) as Hall.
    rewrite Forall_lookup in Hall. by apply (Hall c). }
  destruct Hs as [(Hq & Hin & Hsent & Hres)|(Hq & Hin & Hsent & Hres)].
  - rewrite Hin. split; [simpl; lia|]. intros c' [= <-].
    split; [by intros p Hp; apply not_elem_of_nil in Hp|].
    split; [by rewrite Hq; intros u ->%list_elem_of_singleton|].
    split; [by left|]. exists (results s), [].
    rewrite app_nil_r. split; [done|]. split; [done|]. simpl. lia.
  - destruct Hres as (prev & done & Hres & Hprev & Hperm).
    pose proof (Permutation_length Hperm) as Hlen.
    rewrite length_app, slots_length in Hlen. simpl in Hlen.
    split; [lia|]. intros c' [= <-].
    split.
    { intros p Hp. apply (slots_chunk (mkUnit c tokens)). rewrite <- Hperm.
      apply elem_of_app. by left. }
    split; [by rewrite Hq; intros u Hu; apply not_elem_of_nil in Hu|].
    split; [by right|]. exists prev, (map result_of done).
    split; [done|]. split; [done|]. rewrite length_map. lia.
Qed.

(** The outcome of the transport for each recipient, in order. *)
Definition outcomes : list Outcome :=
  (λ p, messaging_send (message (call_of p)) (dry_run (call_of p))) <$> plan.

(** The call carries the defaults and nothing else. *)
Definition is_default_call (c : Call) : Prop :=
  notification_title (message c) = "Default Notification" ∧
  notification_body (message c) = EmptyString ∧
  message_data (message c) = ∅ ∧
  dry_run c = false.

(** The defaults: for an entry that is missing, and for each field that
    is missing in the entry that was looked up. *)
Lemma build_call_defaults userId userMeta :
  (userMeta = None → is_default_call (build_call userId userMeta)) ∧
  (userMeta ≫= title = None →
   notification_title (message (build_call userId userMeta))
   = "Default Notification") ∧
  (userMeta ≫= body = None →
   notification_body (message (build_call userId userMeta)) = EmptyString) ∧
  (userMeta ≫= data = None →
   message_data (message (build_call userId userMeta)) = ∅) ∧
  (userMeta ≫= dryRun = None → dry_run (build_call userId userMeta) = false).
Proof.
  unfold build_call, is_default_call. simpl.
  split; [by intros ->|]. repeat split; by intros ->.
Qed.

End Send.
End FirebaseNotifier.

(** ** The concurrency-bounded adapter: WebPushNotifier *)

Module WebPushNotifier.
Import EventLoop.

(** What [JSON.parse(id)] evaluated to, as far as [send] looks at it:
    [null], on which reading [.endpoint] throws, or any other value, with
    what its [.endpoint] evaluates to ([None] for [undefined]). *)
Inductive JsValue :=
| JsNull
| JsRecord (endpoint : option string).

Record VapidDetails := mkVapid {
  subject : string;
  publicKey : string;
  privateKey : string
}.

(** One entry of [meta]; every field is optional. *)
Record WebPush := mkMeta {
  title : option string;
  body : option string;
  data : option (gmap string string);
  TTL : option nat;
  vapidDetails : option VapidDetails;
  headers : option (gmap string string)
}.

(** The object that is serialised into [pushPayload]. *)
Record Payload := mkPayload {
  payload_title : string;
  payload_body : string;
  payload_data : gmap string string
}.

(** [requestOptions]; a field is [None] when the round trip through JSON
    removed it. *)
Record RequestOptions := mkRequestOptions {
  options_TTL : option nat;
  options_vapidDetails : option VapidDetails;
  options_headers : option (gmap string string)
}.

(** One call of [webPush.sendNotification]. *)
Record Call := mkCall {
  call_subscription : JsValue;
  call_payload : Payload;
  call_options : RequestOptions
}.

(** The closure handed to [rateLimiter.schedule] in iteration [i] of the
    loop: it captures [subscription] and [pushMeta]. While its call is
    pending, this is also the closure suspended at
    [await webPush.sendNotification(...)]. *)
Record Task := mkTask {
  task_index : nat;
  task_subscription : JsValue;
  task_pushMeta : WebPush
}.

Inductive Exception :=
| SyntaxError (message : string)
| TypeError.

(** The configuration of the adapter, without the VAPID keys. *)
Record WebPushNotifierConfig := mkConfig {
  maxMessagesPerSecond : option Z
}.

(** The limiter that the constructor creates:
    [new RateLimiter(config.maxMessagesPerSecond || 50, 1000)]. *)
Definition rateLimiter (config : WebPushNotifierConfig)
  : option (RateLimiter.t Task) :=
  RateLimiter.create (or_number (maxMessagesPerSecond config) 50) 1000.

(** Where [send] is: suspended at [await Promise.all(tasks)] inside the
    loop, which will go on with iteration [i]; suspended at the
    [await Promise.all(tasks)] after the loop; returned; or it has thrown. *)
Inductive Main :=
| AwaitAll (i : nat) (tasks : list nat)
| AwaitRest (tasks : list nat)
| Returned
| Raised (e : Exception).

Record State := mkState {
  limiter : RateLimiter.t Task;
  inflight : list Task;
  rejected : list nat;
  sent : list Call;
  results : list DispatchResult;
  main : Main
}.

Definition set_main (m : Main) (s : State) : State :=
  mkState (limiter s) (inflight s) (rejected s) (sent s) (results s) m.

Definition maxConcurrentSends : nat := 5.

(** [{ title: "Notification", body: "", data: {} }] *)
Definition default_pushMeta : WebPush :=
  mkMeta (Some "Notification") (Some EmptyString) (Some ∅) None None None.

Definition payload_of (pushMeta : WebPush) : Payload :=
  mkPayload (or_string (title pushMeta) "Notification")
            (or_string (body pushMeta) EmptyString)
            (default ∅ (data pushMeta)).

Definition options_of (pushMeta : WebPush) : RequestOptions :=
  mkRequestOptions (TTL pushMeta) (vapidDetails pushMeta) (headers pushMeta).

Definition call_of (t : Task) : Call :=
  mkCall (task_subscription t) (payload_of (task_pushMeta t))
         (options_of (task_pushMeta t)).

(** The unit starts: it runs up to its [await webPush.sendNotification]. *)
Definition launch (s : State) (t : Task) : State :=
  mkState (limiter s) (inflight s ++ [t]) (rejected s)
          (sent s ++ [call_of t]) (results s) (main s).

Definition schedule_task (t : Task) (s : State) : State :=
  let '(rl, started) := RateLimiter.schedule t (limiter s) in
  foldl launch
    (mkState rl (inflight s) (rejected s) (sent s) (results s) (main s))
    started.

(** The tasks that are not settled yet: their unit waits in the limiter
    or its call is pending. *)
Definition unsettled (s : State) : list nat :=
  map task_index (RateLimiter.queue (limiter s))
  ++ map task_index (inflight s).

Section Send.
(** [JSON.parse]: a syntax error with its message, or a value. *)
Variable JSON_parse : string → string + JsValue.
(** The transport, [webPush.sendNotification]. *)
Variable sendNotification : JsValue → Payload → RequestOptions → Outcome.
(** The arguments of [send]. The signature requires [meta]; a caller that
    goes through the channel interface may leave it out ([None]). *)
Variable userIds : list string.
Variable meta : option (list WebPush).

(** [userIds.map((id) => JSON.parse(id))]: the first identifier that does
    not parse makes the whole [map] throw. *)
Fixpoint parse_all (ids : list string) : Exception + list JsValue :=
  match ids with
  | [] => inr []
  | id :: ids' =>
      match JSON_parse id with
      | inl message => inl (SyntaxError message)
      | inr v =>
          match parse_all ids' with
          | inl e => inl e
          | inr vs => inr (v :: vs)
          end
      end
  end.

Definition subscriptions : list JsValue :=
  match parse_all userIds with
  | inr subs => subs
  | inl _ => []
  end.

(** The [for] loop from iteration [i] on, up to the point where [send]
    suspends, returns or throws. [meta[i]] throws when [meta] is
    undefined. The tasks awaited at [await Promise.all(tasks)] were all
    scheduled since [send] was last resumed; their calls complete with
    later events, so that [send] suspends there. *)
Fixpoint loop (rest : list JsValue) (i : nat) (tasks : list nat) (s : State)
  : State :=
  match rest with
  | [] =>
      match tasks with
      | [] => set_main Returned s
      | _ :: _ => set_main (AwaitRest tasks) s
      end
  | subscription :: rest' =>
      match meta with
      | None => set_main (Raised TypeError) s
      | Some m =>
          let pushMeta := default default_pushMeta (m !! i) in
          let s1 := schedule_task (mkTask i subscription pushMeta) s in
          let tasks' := tasks ++ [i] in
          if length tasks' =? maxConcurrentSends
          then set_main (AwaitAll (S i) tasks') s1
          else loop rest' (S i) tasks' s1
      end
  end.

(** [await Promise.all(tasks)]: it throws as soon as one task is rejected
    (the handle of a unit that threw), and goes on when all are
    fulfilled. *)
Definition resume (s : State) : State :=
  match main s with
  | AwaitAll i tasks =>
      if existsb (λ t, bool_decide (t ∈ rejected s)) tasks
      then set_main (Raised TypeError) s
      else if forallb (λ t, bool_decide (t ∉ unsettled s)) tasks
      then loop (drop i subscriptions) i [] s
      else s
  | AwaitRest tasks =>
      if existsb (λ t, bool_decide (t ∈ rejected s)) tasks
      then set_main (Raised TypeError) s
      else if forallb (λ t, bool_decide (t ∉ unsettled s)) tasks
      then set_main Returned s
      else s
  | Returned | Raised _ => s
  end.

(** What the unit pushes on [results] when its call has completed. *)
Definition outcome_of (c : Call) : Outcome :=
  sendNotification (call_subscription c) (call_payload c) (call_options c).

Definition result_of (endpoint : option string) (c : Call) : DispatchResult :=
  to_result endpoint (outcome_of c).

(** The call of task [t] completes. With a [null] subscription, reading
    [subscription.endpoint] throws in the [try] block or in the [catch]
    block, and throws again in the [catch] block: the unit pushes nothing
    and its task is rejected. So it is when the call is rejected with
    [null] or [undefined]: the [catch] block throws at [error.message]. *)
Definition complete (t : Task) (s : State) : State :=
  match task_subscription t with
  | JsNull =>
      mkState (limiter s) (inflight s) (rejected s ++ [task_index t])
              (sent s) (results s) (main s)
  | JsRecord endpoint =>
      if catch_throws (outcome_of (call_of t))
      then mkState (limiter s) (inflight s) (rejected s ++ [task_index t])
                   (sent s) (results s) (main s)
      else mkState (limiter s) (inflight s) (rejected s) (sent s)
                   (results s ++ [result_of endpoint (call_of t)]) (main s)
  end.

Definition step (e : Event) (s : State) : State :=
  match e with
  | Tick =>
      let '(rl, released) := RateLimiter.refill (limiter s) in
      resume (foldl launch
                (mkState rl (inflight s) (rejected s) (sent s) (results s)
                         (main s))
                released)
  | Complete j =>
      match inflight s !! j with
      | None => s
      | Some t =>
          resume (complete t
                    (mkState (limiter s) (delete j (inflight s)) (rejected s)
                             (sent s) (results s) (main s)))
      end
  end.

Definition enabled (s : State) : list Event :=
  (match RateLimiter.queue (limiter s) with [] => [] | _ :: _ => [Tick] end)
  ++ map Complete (seq 0 (length (inflight s))).

(** [send(userIds, meta)] on an adapter whose limiter is [rl], up to its
    first suspension. *)
Definition send (rl : RateLimiter.t Task) : State :=
  match parse_all userIds with
  | inl e => mkState rl [] [] [] [] (Raised e)
  | inr subs => loop subs 0 [] (mkState rl [] [] [] [] Returned)
  end.

(** [send] returns along every schedule, in a state that satisfies [P]. *)
Definition always_returns (P : State → Prop) (rl : RateLimiter.t Task)
  : Prop :=
  ∀ sched, 2 * length userIds ≤ length sched →
    let s := run step enabled sched (send rl) in
    main s = Returned ∧ P s.

(** [send] returns in a state that satisfies [P]: along every schedule it
    gets to [return results], and whenever it has returned, and so when it
    returns, the state satisfies [P]. *)
Definition returns (P : State → Prop) (rl : RateLimiter.t Task) : Prop :=
  (∀ sched, 2 * length userIds ≤ length sched →
     main (run step enabled sched (send rl)) = Returned) ∧
  (∀ trace, let s := exec step trace (send rl) in main s = Returned → P s).

(** The identifier decodes to a value other than [null]. *)
Definition decodes (id : string) : bool :=
  match JSON_parse id with
  | inr (JsRecord _) => true
  | inr JsNull | inl _ => false
  end.

(** *** What every reachable state looks like, when [meta] is given,
    every identifier decodes to a value other than [null] and no call is
    rejected with [null] or [undefined] *)

Section Facts.
Variable m : list WebPush.
Variable subs : list JsValue.
Hypothesis Hmeta : meta = Some m.
Hypothesis Hparse : parse_all userIds = inr subs.
Hypothesis Hsubs : Forall (λ v, v ≠ JsNull) subs.

(** The tasks of a request, recipient after recipient. *)
Definition plan : list Task :=
  imap (λ i sub, mkTask i sub (default default_pushMeta (m !! i))) subs.

(** No call of the request is rejected with [null] or [undefined]. *)
Hypothesis Hreason :
  Forall (λ t, catch_throws (outcome_of (call_of t)) = false) plan.

Definition endpoint_of (v : JsValue) : option string :=
  match v with
  | JsNull => None
  | JsRecord endpoint => endpoint
  end.

Definition task_result (t : Task) : DispatchResult :=
  result_of (endpoint_of (task_subscription t)) (call_of t).

(** How many iterations of the loop have been run. *)
Definition scheduled (s : State) : nat :=
  match main s with
  | AwaitAll i _ => i
  | AwaitRest _ | Returned | Raised _ => length subs
  end.

(** After [i] iterations: the first [i] tasks are queued, pending or done,
    the limiter releases them in order, and each task that is done has
    pushed its result. *)
Definition core (i : nat) (s : State) : Prop :=
  0 < RateLimiter.maxPerInterval (limiter s) ∧
  (RateLimiter.tokens (limiter s) = 0 ∨ RateLimiter.queue (limiter s) = []) ∧
  rejected s = [] ∧
  (∃ done, RateLimiter.queue (limiter s) ++ inflight s ++ done ≡ₚ take i plan ∧
           results s = map task_result done) ∧
  sent s ++ map call_of (RateLimiter.queue (limiter s))
    = map call_of (take i plan).

(** The tasks that are not settled are among those [send] awaits. *)
Definition awaited (tasks : list nat) (s : State) : Prop :=
  unsettled s ⊆ tasks ∧ length (unsettled s) ≤ length tasks.

Definition Inv (s : State) : Prop :=
  core (scheduled s) s ∧
  match main s with
  | AwaitAll i tasks =>
      i ≤ length subs ∧ length tasks = maxConcurrentSends ∧
      awaited tasks s ∧ unsettled s ≠ []
  | AwaitRest tasks =>
      length tasks < maxConcurrentSends ∧ awaited tasks s ∧ unsettled s ≠ []
  | Returned => unsettled s = []
  | Raised _ => False
  end.

Lemma subscriptions_subs : subscriptions = subs.
Proof. unfold subscriptions. by rewrite Hparse. Qed.

Lemma wp_plan_length : length plan = length subs.
Proof. unfold plan. by rewrite length_imap. Qed.

Lemma plan_lookup i sub :
  subs !! i = Some sub →
  plan !! i = Some (mkTask i sub (default default_pushMeta (m !! i))).
Proof. intros H. unfold plan. by rewrite list_lookup_imap, H. Qed.

Lemma plan_not_null t : t ∈ plan → task_subscription t ≠ JsNull.
Proof.
  intros Ht. apply list_elem_of_lookup in Ht as [i Hi]. unfold plan in Hi.
  rewrite list_lookup_imap in Hi.
  destruct (subs !! i) as [sub|] eqn:Hsub; simplify_eq/=.
  rewrite Forall_forall in Hsubs. apply Hsubs.
  by eapply list_elem_of_lookup_2.
Qed.

Lemma launches s ts :
  foldl launch s ts
  = mkState (limiter s) (inflight s ++ ts) (rejected s)
            (sent s ++ map call_of ts) (results s) (main s).
Proof.
  revert s. induction ts as [|t ts IH]; intros s; simpl.
  - rewrite !app_nil_r. by destruct s.
  - rewrite IH. simpl. by rewrite <- !app_assoc.
Qed.

(** One iteration of the loop schedules the next task of the plan. *)
Lemma schedule_core i t s :
  plan !! i = Some t → core i s →
  let s1 := schedule_task t s in
  core (S i) s1 ∧ main s1 = main s ∧
  unsettled s1 ≡ₚ task_index t :: unsettled s.
Proof.
  intros Ht (Hmax & Htok & Hrej & (done & Hperm & Hres) & Hsent).
  unfold schedule_task, RateLimiter.schedule, core.
  rewrite (take_S_r _ _ _ Ht).
  destruct (RateLimiter.tokens (limiter s)) as [|k] eqn:Hk; simpl.
  - split; [|split; [done|]].
    + repeat split; simpl; try done; [by left| |].
      * exists done. split; [|done]. rewrite <- Hperm.
        rewrite <- !app_assoc. apply Permutation_app_head.
        rewrite (app_assoc (inflight s)). apply Permutation_cons_append.
      * by rewrite !map_app, app_assoc, Hsent.
    + unfold unsettled. simpl. rewrite map_app. simpl.
      rewrite <- app_assoc. simpl. by rewrite <- Permutation_middle.
  - destruct Htok as [?|Hq]; [done|].
    split; [|split; [done|]].
    + repeat split; simpl; try done; [by right| |].
      * exists done. split; [|done]. rewrite <- Hperm, Hq. simpl.
        rewrite <- !app_assoc. apply Permutation_app_head, Permutation_app_comm.
      * rewrite Hq in *. simpl in *. rewrite app_nil_r in *.
        by rewrite map_app, Hsent.
    + unfold unsettled. simpl. rewrite map_app. simpl.
      rewrite app_assoc. by rewrite <- Permutation_cons_append.
Qed.

Lemma core_set_main i x s : core i (set_main x s) ↔ core i s.
Proof. done. Qed.

Lemma wp_loop_Inv rest i tasks s :
  rest = drop i subs → core i s → awaited tasks s →
  length tasks < maxConcurrentSends → (tasks ≠ [] → unsettled s ≠ []) →
  Inv (loop rest i tasks s).
Proof.
  revert i tasks s. induction rest as [|sub rest IH];
    intros i tasks s Hrest Hcore [Hsub Hlen] Htasks Hne.
  - assert (length subs ≤ i) as Hi.
    { pose proof (length_drop subs i) as Hl. rewrite <- Hrest in Hl.
      simpl in Hl. lia. }
    assert (core (length subs) s) as Hcore'.
    { unfold core in *. rewrite take_ge in Hcore by (rewrite wp_plan_length; lia).
      by rewrite take_ge by (rewrite wp_plan_length; lia). }
    simpl. destruct tasks as [|t tasks].
    + split; [done|]. simpl. change (unsettled (set_main Returned s)) with (unsettled s).
      destruct (unsettled s); [done|]. simpl in Hlen. lia.
    + split; [done|]. simpl. repeat split; try done. by apply Hne.
  - apply drop_cons_inv in Hrest as [Hi Hrest]. simpl. rewrite Hmeta.
    destruct (schedule_core i _ s (plan_lookup i sub Hi) Hcore)
      as (Hcore1 & Hmain1 & Huns1).
    set (s1 := schedule_task _ s) in *.
    assert (awaited (tasks ++ [i]) s1) as Haw.
    { split.
      - intros x Hx. rewrite Huns1 in Hx. apply elem_of_cons in Hx as [->|Hx].
        + apply elem_of_app. right. by left.
        + apply elem_of_app. left. by apply Hsub.
      - rewrite Huns1, length_app. simpl. lia. }
    assert (unsettled s1 ≠ []) as Hne1.
    { intros Hnil. rewrite Hnil in Huns1. by apply Permutation_nil_cons in Huns1. }
    destruct (Nat.eqb_spec (length (tasks ++ [i])) maxConcurrentSends) as [Heq|Hneq].
    + split; [done|]. simpl. apply lookup_lt_Some in Hi. repeat split; try done.
      * apply Haw.
      * apply Haw.
    + apply IH; try done. rewrite length_app in *. simpl in *. lia.
Qed.

(** [Promise.all(tasks)] is fulfilled exactly when nothing is unsettled. *)
Lemma all_settled tasks s :
  awaited tasks s →
  forallb (λ t, bool_decide (t ∉ unsettled s)) tasks = true ↔ unsettled s = [].
Proof.
  intros [Hsub _]. split.
  - intros Hall. destruct (unsettled s) as [|x l] eqn:Hu; [done|]. exfalso.
    rewrite forallb_forall in Hall.
    assert (x ∈ tasks) as Hx by (apply Hsub; left).
    apply list_elem_of_In, Hall, bool_decide_eq_true in Hx. apply Hx. left.
  - intros ->. apply forallb_forall. intros x _. apply bool_decide_eq_true.
    apply not_elem_of_nil.
Qed.

Lemma none_rejected tasks s :
  rejected s = [] → existsb (λ t, bool_decide (t ∈ rejected s)) tasks = false.
Proof.
  intros ->. induction tasks as [|t tasks IH]; [done|].
  cbn [existsb]. rewrite IH.
  rewrite bool_decide_eq_false_2; [done|]. apply not_elem_of_nil.
Qed.

(** A state that satisfies the invariant but for [send] not having been
    resumed yet. *)
Definition pre_resume (s : State) : Prop :=
  core (scheduled s) s ∧
  match main s with
  | AwaitAll i tasks =>
      i ≤ length subs ∧ length tasks = maxConcurrentSends ∧ awaited tasks s
  | AwaitRest tasks => length tasks < maxConcurrentSends ∧ awaited tasks s
  | Returned => unsettled s = []
  | Raised _ => False
  end.

Lemma resume_Inv s : pre_resume s → Inv (resume s).
Proof.
  intros [Hcore Hmain]. unfold resume.
  destruct (main s) as [i tasks|tasks| |e] eqn:Hm; [| |by split; rewrite ?Hm|done].
  - destruct Hmain as (Hi & Hlen & Haw).
    rewrite none_rejected by apply Hcore.
    destruct (forallb _ tasks) eqn:Hall.
    + apply all_settled in Hall; [|done].
      apply wp_loop_Inv.
      * by rewrite subscriptions_subs.
      * unfold scheduled in Hcore. by rewrite Hm in Hcore.
      * split; [by rewrite Hall|]. rewrite Hall. simpl. lia.
      * unfold maxConcurrentSends. simpl. lia.
      * done.
    + split; [done|]. rewrite Hm. repeat split; try done; try apply Haw.
      intros Hnil. apply (all_settled tasks s Haw) in Hnil. congruence.
  - destruct Hmain as (Hlen & Haw).
    rewrite none_rejected by apply Hcore.
    destruct (forallb _ tasks) eqn:Hall.
    + apply all_settled in Hall; [|done]. split; [|done].
      unfold scheduled in *. by rewrite Hm in Hcore.
    + split; [done|]. rewrite Hm. repeat split; try done; try apply Haw.
      intros Hnil. apply (all_settled tasks s Haw) in Hnil. congruence.
Qed.

Lemma awaited_perm tasks s s' :
  unsettled s' ≡ₚ unsettled s → awaited tasks s → awaited tasks s'.
Proof.
  intros Hp [Hsub Hlen]. split.
  - intros x Hx. rewrite Hp in Hx. by apply Hsub.
  - by rewrite Hp.
Qed.

Lemma tick_pre_resume s :
  Inv s →
  pre_resume
    (foldl launch
       (mkState (RateLimiter.refill (limiter s)).1 (inflight s) (rejected s)
                (sent s) (results s) (main s))
       (RateLimiter.refill (limiter s)).2).
Proof.
  intros [(Hmax & Htok & Hrej & (done & Hperm & Hres) & Hsent) Hmain].
  rewrite launches. simpl.
  set (q := RateLimiter.queue (limiter s)) in *.
  set (n := RateLimiter.maxPerInterval (limiter s)) in *.
  set (s' := mkState _ _ _ _ _ _).
  assert (unsettled s' ≡ₚ unsettled s) as Huns.
  { unfold unsettled. subst s'. simpl. fold q n.
    rewrite <- (take_drop n q) at 3. rewrite !map_app. solve_Permutation. }
  assert (core (scheduled s) s') as Hcore.
  { repeat split; simpl; try done.
    - destruct (decide (length q ≤ n)).
      + right. by apply drop_ge.
      + left. rewrite length_take. lia.
    - exists done. split; [|done]. rewrite <- Hperm.
      rewrite <- (take_drop n q) at 3. solve_Permutation.
    - rewrite <- Hsent, <- app_assoc, <- map_app. by rewrite take_drop. }
  split; [done|]. change (main s') with (main s).
  destruct (main s) as [i tasks|tasks| |e]; try done.
  - destruct Hmain as (? & ? & ? & _). split; [done|]. split; [done|].
    by eapply awaited_perm.
  - destruct Hmain as (? & ? & _). split; [done|]. by eapply awaited_perm.
  - rewrite Hmain in Huns. symmetry in Huns. by apply Permutation_nil in Huns.
Qed.

Lemma complete_pre_resume j t s :
  Inv s → inflight s !! j = Some t →
  task_subscription t ≠ JsNull →
  catch_throws (outcome_of (call_of t)) = false →
  pre_resume
    (complete t
       (mkState (limiter s) (delete j (inflight s)) (rejected s) (sent s)
                (results s) (main s))).
Proof.
  intros [(Hmax & Htok & Hrej & (done & Hperm & Hres) & Hsent) Hmain] Hj
    Hnull Hcatch.
  unfold complete. destruct (task_subscription t) as [|endpoint] eqn:Ht; [done|].
  rewrite Hcatch. simpl. set (s' := mkState _ _ _ _ _ _).
  assert (core (scheduled s) s') as Hcore.
  { repeat split; simpl; try done.
    exists (done ++ [t]). split.
    - rewrite <- Hperm.
      rewrite (delete_Permutation (inflight s) j t Hj) at 2.
      solve_Permutation.
    - rewrite map_app, Hres. simpl. unfold task_result. by rewrite Ht. }
  assert (unsettled s' ⊆ unsettled s ∧ length (unsettled s') ≤ length (unsettled s))
    as [Hsub Hlen].
  { unfold unsettled. subst s'. simpl. split.
    - intros x Hx. apply elem_of_app in Hx as [Hx|Hx]; apply elem_of_app;
        [by left|right].
      apply list_elem_of_fmap in Hx as (y & -> & Hy).
      apply list_elem_of_fmap. exists y. split; [done|].
      by eapply list_elem_of_delete_inv.
    - rewrite !length_app, !length_map.
      pose proof (sublist_length _ _ (sublist_delete (inflight s) j)). lia. }
  split; [done|]. change (main s') with (main s).
  destruct (main s) as [i tasks|tasks| |e]; try done.
  - destruct Hmain as (? & ? & [? ?] & _). repeat split; try done.
    + intros x Hx. auto.
    + lia.
  - destruct Hmain as (? & [? ?] & _). repeat split; try done.
    + intros x Hx. auto.
    + lia.
  - rewrite Hmain in Hlen. destruct (unsettled s'); [done|simpl in Hlen; lia].
Qed.

(** The pending calls are calls of the plan. *)
Lemma inflight_plan j t s : Inv s → inflight s !! j = Some t → t ∈ plan.
Proof.
  intros [(_ & _ & _ & (done & Hperm & _) & _) _] Hj.
  apply (subseteq_take (scheduled s)).
  rewrite <- Hperm. apply elem_of_app. right. apply elem_of_app. left.
  by eapply list_elem_of_lookup_2.
Qed.

Lemma wp_Inv_step e s : Inv s → Inv (step e s).
Proof.
  intros Hs. destruct e as [|j]; simpl.
  - apply resume_Inv, (tick_pre_resume s Hs).
  - destruct (inflight s !! j) as [t|] eqn:Hj; [|done].
    pose proof (inflight_plan j t s Hs Hj) as Ht.
    eapply resume_Inv, complete_pre_resume; [done..| |].
    + by apply plan_not_null.
    + rewrite Forall_forall in Hreason. by apply Hreason.
Qed.

(** *** When a unit throws

    Without the two hypotheses on the calls, a unit may throw: its call
    was made with a subscription that is [null], or was rejected with
    [null] or [undefined]. Then [send] throws, as soon as that call
    completes; until then the invariant holds, and afterwards what is
    not settled only shrinks. *)

Definition thrown (s : State) : Prop :=
  (∃ e, main s = Raised e) ∧
  length (unsettled s) ≤ maxConcurrentSends ∧
  ∃ i, sent s ++ map call_of (RateLimiter.queue (limiter s))
       = map call_of (take i plan).

Definition Inv_or_raised (s : State) : Prop := thrown s ∨ Inv s.

Lemma tick_unsettled s :
  unsettled
    (foldl launch
       (mkState (RateLimiter.refill (limiter s)).1 (inflight s) (rejected s)
                (sent s) (results s) (main s))
       (RateLimiter.refill (limiter s)).2)
  ≡ₚ unsettled s.
Proof.
  rewrite launches. unfold unsettled. simpl.
  set (q := RateLimiter.queue (limiter s)).
  set (n := RateLimiter.maxPerInterval (limiter s)).
  rewrite <- (take_drop n q) at 3. rewrite !map_app. solve_Permutation.
Qed.

Lemma complete_unsettled j t s :
  length
    (unsettled
       (complete t
          (mkState (limiter s) (delete j (inflight s)) (rejected s) (sent s)
                   (results s) (main s))))
  ≤ length (unsettled s).
Proof.
  unfold complete, unsettled.
  pose proof (sublist_length _ _ (sublist_delete (inflight s) j)).
  destruct (task_subscription t); [|destruct (catch_throws _)]; simpl;
    rewrite !length_app, !length_map; lia.
Qed.

Lemma Inv_unsettled s : Inv s → length (unsettled s) ≤ maxConcurrentSends.
Proof.
  intros [_ Hmain]. destruct (main s); try done.
  - destruct Hmain as (_ & Hlen & [_ ?] & _). lia.
  - destruct Hmain as (Hlen & [_ ?] & _). lia.
  - rewrite Hmain. simpl. lia.
Qed.

(** The unit of an awaited task throws: [Promise.all] is rejected. *)
Lemma throwing_raises j t s :
  Inv s → inflight s !! j = Some t →
  thrown
    (resume
       (mkState (limiter s) (delete j (inflight s))
                (rejected s ++ [task_index t]) (sent s) (results s) (main s))).
Proof.
  intros Hs Hj. set (s' := mkState _ _ _ _ _ _).
  assert (task_index t ∈ unsettled s) as Hu.
  { unfold unsettled. apply elem_of_app. right.
    apply list_elem_of_fmap. exists t. split; [done|].
    by eapply list_elem_of_lookup_2. }
  assert (length (unsettled s') ≤ maxConcurrentSends) as Hle.
  { pose proof (Inv_unsettled s Hs) as Hle.
    pose proof (sublist_length _ _ (sublist_delete (inflight s) j)).
    unfold unsettled in *. simpl. rewrite !length_app, !length_map in *. lia. }
  assert (∀ tasks, task_index t ∈ tasks →
            existsb (λ x, bool_decide (x ∈ rejected s')) tasks = true) as Hex.
  { intros tasks Hin. apply existsb_exists. exists (task_index t).
    split; [by apply list_elem_of_In|]. apply bool_decide_eq_true.
    simpl. apply elem_of_app. right. by left. }
  destruct Hs as [(_ & _ & _ & _ & Hsent) Hmain].
  unfold resume. change (main s') with (main s).
  destruct (main s) as [i tasks|tasks| |e]; try done.
  - destruct Hmain as (_ & _ & [Hsub _] & _). rewrite Hex by auto.
    split; [by eexists|]. split; [done|]. by eexists.
  - destruct Hmain as (_ & [Hsub _] & _). rewrite Hex by auto.
    split; [by eexists|]. split; [done|]. by eexists.
  - rewrite Hmain in Hu. by apply not_elem_of_nil in Hu.
Qed.

Lemma thrown_step e s : thrown s → thrown (step e s).
Proof.
  intros ([x Hx] & Hlen & [i Hsent]). destruct e as [|j]; simpl.
  - pose proof (tick_unsettled s) as Hu.
    unfold resume. rewrite launches in *. simpl. rewrite Hx.
    split; [by eexists|]. split; [by rewrite Hu|].
    exists i. simpl. rewrite <- Hsent, <- app_assoc, <- map_app.
    by rewrite take_drop.
  - destruct (inflight s !! j) as [t|]; [|by split; [eexists|split; [|eexists]]].
    pose proof (complete_unsettled j t s) as Hu.
    set (s' := complete t _) in *.
    assert (main s' = Raised x ∧ sent s' = sent s ∧ limiter s' = limiter s)
      as (Hm & Hsent' & Hlim').
    { subst s'. unfold complete.
      destruct (task_subscription t); [|destruct (catch_throws _)]; done. }
    unfold resume. rewrite Hm. split; [by eexists|]. split; [lia|].
    exists i. by rewrite Hsent', Hlim'.
Qed.

Lemma wp_Inv_or_raised_step e s : Inv_or_raised s → Inv_or_raised (step e s).
Proof.
  intros [Hs|Hs]; [left; by apply thrown_step|].
  destruct e as [|j]; simpl.
  - right. apply resume_Inv, (tick_pre_resume s Hs).
  - destruct (inflight s !! j) as [t|] eqn:Hj; [|by right].
    destruct (task_subscription t) as [|endpoint] eqn:Hsub.
    { left. unfold complete. rewrite Hsub. apply (throwing_raises j t s Hs Hj). }
    destruct (catch_throws (outcome_of (call_of t))) eqn:Hcatch.
    { left. unfold complete. rewrite Hsub, Hcatch.
      apply (throwing_raises j t s Hs Hj). }
    right. eapply resume_Inv, complete_pre_resume; try done.
    by rewrite Hsub.
Qed.

Lemma wp_reachable_Inv_or_raised rl trace :
  RateLimiter.idle rl → Inv_or_raised (exec step trace (send rl)).
Proof.
  intros [Hq Hmax].
  apply (exec_invariant step Inv_or_raised wp_Inv_or_raised_step).
  right. unfold send. rewrite Hparse.
  apply wp_loop_Inv; try done.
  - repeat split; simpl; try done; [by right| |by rewrite Hq].
    exists []. by rewrite Hq.
  - unfold awaited, unsettled. simpl. by rewrite Hq.
  - unfold maxConcurrentSends. simpl. lia.
Qed.

(** *** Termination: what is left to do *)

(** A task that is not scheduled yet or waits in the limiter costs one
    event for its release and one for the completion of its call. *)
Definition measure (s : State) : nat :=
  2 * (length subs - scheduled s)
  + 2 * length (RateLimiter.queue (limiter s)) + length (inflight s).

Definition load (s : State) : nat :=
  2 * length (RateLimiter.queue (limiter s)) + length (inflight s).

Lemma schedule_load t s : load (schedule_task t s) ≤ load s + 2.
Proof.
  unfold schedule_task, RateLimiter.schedule, load.
  destruct (RateLimiter.tokens (limiter s)); simpl; rewrite length_app; simpl; lia.
Qed.

Lemma wp_loop_measure rest i tasks s :
  rest = drop i subs →
  measure (loop rest i tasks s) ≤ 2 * length rest + load s.
Proof.
  revert i tasks s. induction rest as [|sub rest IH]; intros i tasks s Hrest.
  - simpl. unfold measure, scheduled, load.
    destruct tasks; simpl; lia.
  - apply drop_cons_inv in Hrest as [Hi Hrest]. simpl. rewrite Hmeta.
    pose proof (schedule_load (mkTask i sub (default default_pushMeta (m !! i))) s).
    destruct (_ =? _).
    + unfold measure, scheduled. simpl. fold (load (schedule_task
        (mkTask i sub (default default_pushMeta (m !! i))) s)).
      assert (length rest = length subs - S i) as <-
        by (by rewrite Hrest, length_drop).
      unfold load in *. lia.
    + etrans; [by apply IH|]. lia.
Qed.

Lemma wp_resume_measure s : measure (resume s) ≤ measure s.
Proof.
  unfold resume.
  destruct (main s) as [i tasks|tasks| |e] eqn:Hm; try done.
  - destruct (existsb _ _).
    { unfold measure, scheduled. simpl. rewrite Hm. lia. }
    destruct (forallb _ _); [|done].
    etrans; [apply wp_loop_measure; by rewrite subscriptions_subs|].
    unfold measure, scheduled, load.
    rewrite Hm, subscriptions_subs, length_drop. lia.
  - destruct (existsb _ _).
    { unfold measure, scheduled. simpl. rewrite Hm. lia. }
    destruct (forallb _ _); [|done].
    unfold measure, scheduled. simpl. rewrite Hm. lia.
Qed.

Lemma wp_tick_measure s :
  measure (step Tick s)
  + length (take (RateLimiter.maxPerInterval (limiter s))
                 (RateLimiter.queue (limiter s)))
  ≤ measure s.
Proof.
  pose proof (f_equal length (take_drop (RateLimiter.maxPerInterval (limiter s))
                                        (RateLimiter.queue (limiter s)))) as Hl.
  rewrite length_app in Hl.
  simpl. rewrite launches.
  etrans; [apply Nat.add_le_mono_r, wp_resume_measure|].
  unfold measure, scheduled. simpl. rewrite length_app. lia.
Qed.

Lemma wp_complete_measure j t s :
  inflight s !! j = Some t → measure (step (Complete j) s) < measure s.
Proof.
  intros Hj. simpl. rewrite Hj.
  eapply Nat.le_lt_trans; [apply wp_resume_measure|].
  unfold complete, measure, scheduled.
  destruct (task_subscription t); [|destruct (catch_throws _)]; simpl;
    rewrite length_delete by eauto; apply lookup_lt_Some in Hj; lia.
Qed.

Lemma wp_enabled_measure e s :
  Inv s → e ∈ enabled s → measure (step e s) < measure s.
Proof.
  intros [(Hmax & _) _] He. unfold enabled in He.
  apply elem_of_app in He as [He|He].
  - destruct (RateLimiter.queue (limiter s)) as [|u q] eqn:Hq; [by inversion He|].
    apply list_elem_of_singleton in He as ->.
    pose proof (wp_tick_measure s) as Ht. rewrite Hq in Ht.
    rewrite length_take in Ht. simpl length in Ht. lia.
  - apply list_elem_of_fmap in He as (j & -> & Hj).
    apply elem_of_seq in Hj.
    destruct (lookup_lt_is_Some_2 (inflight s) j) as [p Hp]; [lia|].
    by eapply wp_complete_measure.
Qed.

Lemma quiet_unsettled s : enabled s = [] → unsettled s = [].
Proof.
  unfold enabled, unsettled. intros Hen.
  apply app_eq_nil in Hen as [Hq Hin]. apply fmap_nil_inv in Hin.
  destruct (RateLimiter.queue (limiter s)); [|done].
  by destruct (inflight s).
Qed.

Lemma wp_quiet_measure s : Inv s → enabled s = [] → measure s = 0.
Proof.
  intros [_ Hmain] Hen. apply quiet_unsettled in Hen.
  unfold measure, scheduled.
  destruct (main s) as [i tasks|tasks| |e].
  - by destruct Hmain as (? & ? & ? & ?).
  - by destruct Hmain as (? & ? & ?).
  - unfold unsettled in Hen. apply app_eq_nil in Hen as [Hq Hin].
    apply fmap_nil_inv in Hq, Hin. rewrite Hq, Hin. simpl. lia.
  - done.
Qed.

Lemma wp_rest_Returned s :
  Inv s → measure s = 0 → main s = Returned ∧ unsettled s = [].
Proof.
  intros [_ Hmain] Hm.
  assert (unsettled s = []) as Hu.
  { unfold unsettled. unfold measure in Hm.
    destruct (RateLimiter.queue (limiter s)); [|simpl in Hm; lia].
    destruct (inflight s); [done|simpl in Hm; lia]. }
  split; [|done]. destruct (main s); try done.
  - by destruct Hmain as (? & ? & ? & ?).
  - by destruct Hmain as (? & ? & ?).
Qed.

(** *** The whole request *)

Lemma parse_all_length ids vs : parse_all ids = inr vs → length vs = length ids.
Proof.
  revert vs. induction ids as [|id ids IH]; intros vs; simpl.
  - by intros [= <-].
  - destruct (JSON_parse id); [done|]. destruct (parse_all ids); [done|].
    intros [= <-]. simpl. f_equal. by apply IH.
Qed.

Lemma wp_send_Inv rl : RateLimiter.idle rl → Inv (send rl).
Proof.
  intros [Hq Hmax]. unfold send. rewrite Hparse.
  apply wp_loop_Inv; try done.
  - repeat split; simpl; try done; [by right| |by rewrite Hq].
    exists []. by rewrite Hq.
  - unfold awaited, unsettled. simpl. by rewrite Hq.
  - unfold maxConcurrentSends. simpl. lia.
Qed.

Lemma wp_send_measure rl :
  RateLimiter.idle rl → measure (send rl) ≤ 2 * length userIds.
Proof.
  intros [Hq Hmax]. unfold send. rewrite Hparse.
  etrans; [by apply wp_loop_measure|]. unfold load. simpl. rewrite Hq. simpl.
  rewrite (parse_all_length _ _ Hparse). lia.
Qed.

(** At the end the results are those of the plan, in the order in which
    the calls completed. *)
Lemma Returned_results s :
  Inv s → main s = Returned →
  inflight s = [] ∧ RateLimiter.queue (limiter s) = [] ∧
  sent s = map call_of plan ∧ results s ≡ₚ map task_result plan.
Proof.
  intros [(_ & _ & _ & (done & Hperm & Hres) & Hsent) Hmain] Hret.
  unfold scheduled in *. rewrite Hret in *.
  unfold unsettled in Hmain. apply app_eq_nil in Hmain as [Hq Hin].
  apply fmap_nil_inv in Hq, Hin. rewrite Hq, Hin in *.
  rewrite take_ge in Hperm, Hsent by (by rewrite wp_plan_length).
  simpl in *. rewrite app_nil_r in Hsent. repeat split; try done.
  by rewrite Hres, Hperm.
Qed.

(** Whatever the order in which the calls complete and whenever the timer
    fires, [send] returns: every call has completed and has pushed its
    result. *)
Lemma wp_send_completes rl sched :
  RateLimiter.idle rl → 2 * length userIds ≤ length sched →
  let s := run step enabled sched (send rl) in
  main s = Returned ∧ inflight s = [] ∧
  sent s = map call_of plan ∧ results s ≡ₚ map task_result plan.
Proof.
  intros Hrl Hlen s.
  destruct (run_to_rest step enabled Inv measure wp_Inv_step) with (sched := sched)
    (s := send rl) as [HInv Hm].
  - intros s' Hs'. pose proof (wp_tick_measure s'). lia.
  - apply wp_enabled_measure.
  - apply wp_quiet_measure.
  - by apply wp_send_Inv.
  - pose proof (wp_send_measure rl Hrl). lia.
  - fold s in HInv, Hm. destruct (wp_rest_Returned s HInv Hm) as [Hret _].
    destruct (Returned_results s HInv Hret) as (? & ? & ? & ?). done.
Qed.

(** At most [maxConcurrentSends] calls are pending, in every state. *)
Lemma Inv_ceiling s : Inv s → length (inflight s) ≤ maxConcurrentSends.
Proof.
  intros [_ Hmain].
  assert (length (inflight s) ≤ length (unsettled s)) as Hle.
  { unfold unsettled. rewrite length_app, !length_map. lia. }
  destruct (main s); try done.
  - destruct Hmain as (_ & Hlen & [_ ?] & _). lia.
  - destruct Hmain as (Hlen & [_ ?] & _). lia.
  - rewrite Hmain in Hle. simpl in Hle. lia.
Qed.

Lemma wp_send_always_returns rl :
  RateLimiter.idle rl →
  always_returns (λ s, inflight s = [] ∧ sent s = map call_of plan ∧
                       results s ≡ₚ map task_result plan) rl.
Proof. intros Hrl sched Hlen. by apply wp_send_completes. Qed.

(** Every state that events can lead to satisfies the invariant. *)
Lemma wp_reachable_Inv rl trace :
  RateLimiter.idle rl → Inv (exec step trace (send rl)).
Proof.
  intros Hrl. apply (exec_invariant step Inv wp_Inv_step). by apply wp_send_Inv.
Qed.

Lemma plan_subscriptions : task_subscription <$> plan = subs.
Proof.
  unfold plan. rewrite fmap_imap.
  rewrite (imap_ext _ (const id)) by done. by rewrite imap_const, list_fmap_id.
Qed.

Lemma task_result_recipient t :
  recipient (task_result t) = endpoint_of (task_subscription t).
Proof. unfold task_result, result_of. by destruct (outcome_of _). Qed.

(** The outcome of the transport for each recipient, in order. *)
Definition outcomes : list Outcome :=
  (λ t, sendNotification (call_subscription (call_of t))
          (call_payload (call_of t)) (call_options (call_of t))) <$> plan.

Lemma wp_send_returns rl :
  RateLimiter.idle rl →
  returns (λ s, inflight s = [] ∧ sent s = map call_of plan ∧
                results s ≡ₚ map task_result plan) rl.
Proof.
  intros Hrl. split.
  - intros sched Hlen. by apply wp_send_completes.
  - intros trace s Hret.
    by destruct (Returned_results s (wp_reachable_Inv rl trace Hrl) Hret)
      as (? & ? & ? & ?).
Qed.

End Facts.

Lemma wp_returns_impl (P Q : State → Prop) rl :
  (∀ s, P s → Q s) → returns P rl → returns Q rl.
Proof.
  intros HPQ [Hlive Hsafe]. split; [done|].
  intros trace s Hret. by apply HPQ, Hsafe.
Qed.

(** In particular the state at the end of a schedule satisfies [P]. *)
Lemma wp_returns_always_returns (P : State → Prop) rl :
  returns P rl → always_returns P rl.
Proof.
  intros [Hlive Hsafe] sched Hlen s. split; [by apply Hlive|].
  subst s. rewrite run_exec. apply Hsafe. rewrite <- run_exec. by apply Hlive.
Qed.

(** No call of the request is rejected with [null] or [undefined]: the
    [catch] block of each unit can read [error.message]. *)
Definition catch_safe (m : list WebPush) (subs : list JsValue) : bool :=
  forallb (λ o, negb (catch_throws o)) (outcomes m subs).

Lemma catch_safe_plan m subs :
  catch_safe m subs = true →
  Forall (λ t, catch_throws (outcome_of (call_of t)) = false) (plan m subs).
Proof.
  unfold catch_safe, outcomes. intros H.
  rewrite forallb_forall in H. apply Forall_forall. intros t Ht.
  apply negb_true_iff, H, list_elem_of_In, list_elem_of_fmap. by exists t.
Qed.

Lemma wp_always_returns_impl (P Q : State → Prop) rl :
  (∀ s, P s → Q s) → always_returns P rl → always_returns Q rl.
Proof.
  intros HPQ HP sched Hlen. destruct (HP sched Hlen) as [? ?]. split; auto.
Qed.

(** When every identifier decodes, the [map] of [JSON.parse] does not
    throw, and no subscription is [null]. *)
Lemma decodes_parse_all ids :
  forallb decodes ids = true →
  ∃ subs, parse_all ids = inr subs ∧ Forall (λ v, v ≠ JsNull) subs.
Proof.
  induction ids as [|id ids IH]; simpl.
  - intros _. exists []. by split.
  - intros [Hid Hids]%andb_prop. destruct (IH Hids) as (subs & -> & Hsubs).
    unfold decodes in Hid. destruct (JSON_parse id) as [|[|endpoint]]; try done.
    exists (JsRecord endpoint :: subs). split; [done|]. by constructor.
Qed.

(** [JSON.parse] does not throw on the identifier. *)
Definition parses (id : string) : bool :=
  match JSON_parse id with
  | inr _ => true
  | inl _ => false
  end.

Lemma parse_all_throws ids :
  forallb parses ids = false →
  ∃ message, parse_all ids = inl (SyntaxError message).
Proof.
  induction ids as [|id ids IH]; simpl; [done|].
  unfold parses at 1. destruct (JSON_parse id) as [message|v]; simpl.
  - intros _. by exists message.
  - intros Hids. destruct (IH Hids) as [message ->]. by exists message.
Qed.

(** Once [send] has thrown before its first [await], nothing happens any
    more. *)
Lemma raised_stable e rl trace :
  RateLimiter.queue rl = [] →
  let s := exec step trace (mkState rl [] [] [] [] (Raised e)) in
  main s = Raised e ∧ inflight s = [] ∧ sent s = [] ∧ results s = [] ∧
  RateLimiter.queue (limiter s) = [].
Proof.
  revert rl. induction trace as [|ev trace IH]; intros rl Hq; [done|].
  destruct ev as [|j]; simpl; [|by apply IH].
  rewrite Hq, take_nil, drop_nil. simpl. by apply IH.
Qed.

End Send.
End WebPushNotifier.

(** ** The earlier WebPushNotifier, with the in-flight window

    The text of FirebaseNotifier.ts carries, after the class
    [FirebaseNotifier], an earlier version of [WebPushNotifier], which
    keeps a window [activeSends] and awaits [Promise.race] on it. *)

Module WebPushNotifier_prior.
Import EventLoop.
Export WebPushNotifier (JsValue, JsNull, JsRecord, WebPush, mkMeta,
  RequestOptions, mkRequestOptions, Task, mkTask, task_index,
  task_subscription, task_pushMeta, Exception, SyntaxError, TypeError).

(** The object that is serialised into [pushPayload]; [body] is left out
    of the serialisation when it is undefined. *)
Record Payload := mkPayload {
  payload_title : string;
  payload_body : option string;
  payload_data : gmap string string
}.

Record Call := mkCall {
  call_subscription : JsValue;
  call_payload : Payload;
  call_options : RequestOptions
}.

(** Where [send] is: suspended at [await Promise.race(activeSends)], after
    which the loop goes on with iteration [i]; suspended at the final
    [await Promise.all(activeSends)]; returned; or it has thrown. *)
Inductive Main :=
| AwaitRace (i : nat) (activeSends : list nat)
| AwaitAll (activeSends : list nat)
| Returned
| Raised (e : Exception).

Record State := mkState {
  limiter : RateLimiter.t Task;
  inflight : list Task;
  rejected : list nat;
  sent : list Call;
  results : list DispatchResult;
  main : Main
}.

Definition set_main (m : Main) (s : State) : State :=
  mkState (limiter s) (inflight s) (rejected s) (sent s) (results s) m.

Definition maxConcurrentSends : nat := 5.

(** [task.finally]: every promise has this method, a truthy value. *)
Definition task_finally (task : nat) : bool := true.

(** [meta[i] || {}] falls back to the empty object. *)
Definition empty_pushMeta : WebPush := mkMeta None None None None None None.

Definition payload_of (pushMeta : WebPush) : Payload :=
  mkPayload (or_string (WebPushNotifier.title pushMeta) "Notification")
            (WebPushNotifier.body pushMeta)
            (default ∅ (WebPushNotifier.data pushMeta)).

Definition options_of (pushMeta : WebPush) : RequestOptions :=
  mkRequestOptions (WebPushNotifier.TTL pushMeta)
                   (WebPushNotifier.vapidDetails pushMeta)
                   (WebPushNotifier.headers pushMeta).

Definition call_of (t : Task) : Call :=
  mkCall (task_subscription t) (payload_of (task_pushMeta t))
         (options_of (task_pushMeta t)).

Definition launch (s : State) (t : Task) : State :=
  mkState (limiter s) (inflight s ++ [t]) (rejected s)
          (sent s ++ [call_of t]) (results s) (main s).

Definition schedule_task (t : Task) (s : State) : State :=
  let '(rl, started) := RateLimiter.schedule t (limiter s) in
  foldl launch
    (mkState rl (inflight s) (rejected s) (sent s) (results s) (main s))
    started.

Definition unsettled (s : State) : list nat :=
  map task_index (RateLimiter.queue (limiter s))
  ++ map task_index (inflight s).

Section Send.
Variable JSON_parse : string → string + JsValue.
Variable sendNotification : JsValue → Payload → RequestOptions → Outcome.
Variable userIds : list string.
Variable meta : option (list WebPush).

Definition subscriptions : list JsValue :=
  match WebPushNotifier.parse_all JSON_parse userIds with
  | inr subs => subs
  | inl _ => []
  end.

(** [await Promise.all(activeSends)] at the end of [send], then
    [return results]. *)
Definition await_all (activeSends : list nat) (s : State) : State :=
  if existsb (λ t, bool_decide (t ∈ rejected s)) activeSends
  then set_main (Raised TypeError) s
  else if forallb (λ t, bool_decide (t ∉ unsettled s)) activeSends
  then set_main Returned s
  else set_main (AwaitAll activeSends) s.

(** The [for] loop from iteration [i] on. The tasks of [activeSends] at
    the [await Promise.race] were all scheduled since [send] was last
    resumed, so that none of them is settled yet: [send] suspends. *)
Fixpoint loop (rest : list JsValue) (i : nat) (activeSends : list nat)
    (s : State) : State :=
  match rest with
  | [] => await_all activeSends s
  | subscription :: rest' =>
      match meta with
      | None => set_main (Raised TypeError) s
      | Some m =>
          let pushMeta := default empty_pushMeta (m !! i) in
          let s1 := schedule_task (mkTask i subscription pushMeta) s in
          let activeSends' := activeSends ++ [i] in
          if maxConcurrentSends <=? length activeSends'
          then set_main (AwaitRace (S i) activeSends') s1
          else loop rest' (S i) activeSends' s1
      end
  end.

(** [send] is resumed when what it awaits is settled. After the race,
    [activeSends = activeSends.filter((task) => !task.finally)]. *)
Definition resume (s : State) : State :=
  match main s with
  | AwaitRace i activeSends =>
      if existsb (λ t, bool_decide (t ∈ rejected s)) activeSends
      then set_main (Raised TypeError) s
      else if existsb (λ t, bool_decide (t ∉ unsettled s)) activeSends
      then loop (drop i subscriptions) i
             (List.filter (λ task, negb (task_finally task)) activeSends) s
      else s
  | AwaitAll activeSends => await_all activeSends s
  | Returned | Raised _ => s
  end.

Definition outcome_of (c : Call) : Outcome :=
  sendNotification (call_subscription c) (call_payload c) (call_options c).

Definition result_of (endpoint : option string) (c : Call) : DispatchResult :=
  to_result endpoint (outcome_of c).

(** As in the later version, the [catch] block reads [error.message]. *)
Definition complete (t : Task) (s : State) : State :=
  match task_subscription t with
  | JsNull =>
      mkState (limiter s) (inflight s) (rejected s ++ [task_index t])
              (sent s) (results s) (main s)
  | JsRecord endpoint =>
      if catch_throws (outcome_of (call_of t))
      then mkState (limiter s) (inflight s) (rejected s ++ [task_index t])
                   (sent s) (results s) (main s)
      else mkState (limiter s) (inflight s) (rejected s) (sent s)
                   (results s ++ [result_of endpoint (call_of t)]) (main s)
  end.

Definition step (e : Event) (s : State) : State :=
  match e with
  | Tick =>
      let '(rl, released) := RateLimiter.refill (limiter s) in
      resume (foldl launch
                (mkState rl (inflight s) (rejected s) (sent s) (results s)
                         (main s))
                released)
  | Complete j =>
      match inflight s !! j with
      | None => s
      | Some t =>
          resume (complete t
                    (mkState (limiter s) (delete j (inflight s)) (rejected s)
                             (sent s) (results s) (main s)))
      end
  end.

Definition send (rl : RateLimiter.t Task) : State :=
  match WebPushNotifier.parse_all JSON_parse userIds with
  | inl e => mkState rl [] [] [] [] (Raised e)
  | inr subs => loop subs 0 [] (mkState rl [] [] [] [] Returned)
  end.

End Send.
End WebPushNotifier_prior.

(** ** The registry of channels *)

Module NotifierRegistry.
Section Registry.
(** The registered values: instances of a class that implements
    [NotificationChannel]. *)
Context {Channel : Type}.

(** Modelled from the spec: NotifierRegistry.register (the class is in
    core/NotifierRegistry, of which the repository files at hand hold the
    test-suite only). The registry is a process-wide mapping from channel
    name to channel; registering is an unconditional insert-or-replace. *)
Definition register (name : string) (channel : Channel)
    (registry : gmap string Channel) : gmap string Channel :=
  <[name := channel]> registry.

(** Modelled from the spec: the message of the not-registered error of
    NotifierRegistry.get. It carries the requested name; the wording is
    the one the test-suite expects. *)
Definition not_registered (name : string) : string :=
  "Notifier for " +:+ name +:+ " not registered".

(** Modelled from the spec: NotifierRegistry.get returns the registered
    channel or fails with the not-registered error. *)
Definition get (name : string) (registry : gmap string Channel)
  : string + Channel :=
  match registry !! name with
  | Some channel => inr channel
  | None => inl (not_registered name)
  end.

(** Modelled from the spec: clearing the registry empties the mapping
    (the test-suite does it before each test). *)
Definition clear (registry : gmap string Channel) : gmap string Channel := ∅.

(** A message contains a name. *)
Definition contains (name message : string) : Prop :=
  ∃ before after, message = before +:+ name +:+ after.

(** A sequence of registrations, the earliest first. *)
Definition register_all (entries : list (string * Channel))
    (registry : gmap string Channel) : gmap string Channel :=
  foldl (λ r entry, register entry.1 entry.2 r) registry entries.

Lemma register_all_lookup_other name entries registry :
  name ∉ entries.*1 →
  register_all entries registry !! name = registry !! name.
Proof.
  revert registry. induction entries as [|[n c] entries IH];
    intros registry Hname; simpl; [done|].
  rewrite fmap_cons in Hname. apply not_elem_of_cons in Hname as [Hne Hname].
  rewrite IH by done. unfold register. simpl. by rewrite lookup_insert_ne.
Qed.

Lemma get_unregistered name registry :
  registry !! name = None →
  ∃ message, get name registry = inl message ∧ contains name message.
Proof.
  intros Hnone. exists (not_registered name). unfold get. rewrite Hnone.
  split; [done|]. by exists "Notifier for ", " not registered".
Qed.

End Registry.

(** The three tests of the test-suite, with numbers for the two notifiers. *)
Example registers_and_retrieves :
  get "dummy" (register "dummy" 1 (clear (∅ : gmap string nat))) = inr 1.
Proof. reflexivity. Qed.

Example throws_when_not_registered :
  get "nonexistent" (clear (∅ : gmap string nat))
  = inl "Notifier for nonexistent not registered".
Proof. reflexivity. Qed.

Example overwrites_existing_notifier :
  get "dummy"
    (register "dummy" 2 (register "dummy" 1 (clear (∅ : gmap string nat))))
  = inr 2.
Proof. reflexivity. Qed.

End NotifierRegistry.

(** ** Concrete requests *)

Module Examples.

(** The double quote character. *)
Definition quote : string := String (Ascii.ascii_of_nat 34) EmptyString.

(** A serialised subscription, [{"endpoint":"..."}] with its quotes. *)
Definition subscription_json (endpoint : string) : string :=
  "{" +:+ quote +:+ "endpoint" +:+ quote +:+ ":" +:+ quote +:+ endpoint
      +:+ quote +:+ "}".

Fixpoint strip_prefix (p s : string) : option string :=
  match p, s with
  | EmptyString, _ => Some s
  | String a p', String b s' =>
      if Ascii.eqb a b then strip_prefix p' s' else None
  | String _ _, EmptyString => None
  end.

(** The characters before the first double quote, and what follows it. *)
Fixpoint until_quote (s : string) : option (string * string) :=
  match s with
  | EmptyString => None
  | String a s' =>
      if Ascii.eqb a (Ascii.ascii_of_nat 34) then Some (EmptyString, s')
      else '(before, after) ← until_quote s'; Some (String a before, after)
  end.

(** [JSON.parse] on the identifiers of the requests below: a serialised
    subscription, the text [null], and text that is not JSON. *)
Definition JSON_parse (id : string) : string + WebPushNotifier.JsValue :=
  if String.eqb id "null" then inr WebPushNotifier.JsNull
  else
    match strip_prefix ("{" +:+ quote +:+ "endpoint" +:+ quote +:+ ":" +:+ quote) id
          ≫= until_quote with
    | Some (endpoint, "}") => inr (WebPushNotifier.JsRecord (Some endpoint))
    | _ => inl "Unexpected token in JSON"
    end.

(** A Firebase transport that rejects the token [bad] and accepts every
    other token. *)
Definition messaging_send (bad : string) (message : FirebaseNotifier.Message)
    (dryRun : bool) : Outcome :=
  if String.eqb (FirebaseNotifier.token message) bad
  then Rejected (ErrorValue (Some "Requested entity was not found."))
  else Resolved ("projects/demo/messages/" +:+ FirebaseNotifier.token message).

(** A web-push transport that rejects the endpoint [bad] and accepts every
    other endpoint. *)
Definition sendNotification (bad : string)
    (subscription : WebPushNotifier.JsValue)
    (payload : WebPushNotifier.Payload)
    (options : WebPushNotifier.RequestOptions) : Outcome :=
  match subscription with
  | WebPushNotifier.JsRecord (Some endpoint) =>
      if String.eqb endpoint bad
      then Rejected (ErrorValue (Some "Received unexpected response code"))
      else Resolved "201"
  | _ =>
      Rejected
        (ErrorValue
           (Some "You must pass in a subscription with at least an endpoint."))
  end.

(** The same transports, rejecting with a given value: [undefined], or an
    object without [message]. *)
Definition messaging_send_with (reason : Reason) (bad : string)
    (message : FirebaseNotifier.Message) (dryRun : bool) : Outcome :=
  if String.eqb (FirebaseNotifier.token message) bad
  then Rejected reason
  else Resolved ("projects/demo/messages/" +:+ FirebaseNotifier.token message).

Definition sendNotification_with (reason : Reason) (bad : string)
    (subscription : WebPushNotifier.JsValue)
    (payload : WebPushNotifier.Payload)
    (options : WebPushNotifier.RequestOptions) : Outcome :=
  match subscription with
  | WebPushNotifier.JsRecord (Some endpoint) =>
      if String.eqb endpoint bad then Rejected reason else Resolved "201"
  | _ => Rejected reason
  end.

(** The limiters of adapters constructed without [maxMessagesPerSecond]:
    [new RateLimiter(500, 1000)] and [new RateLimiter(50, 1000)]. *)
Definition limiter500 : RateLimiter.t FirebaseNotifier.ChunkUnit :=
  RateLimiter.mk 500 500 1000 [].

Definition limiter50 : RateLimiter.t WebPushNotifier.Task :=
  RateLimiter.mk 50 50 1000 [].

Example limiter500_constructed :
  FirebaseNotifier.rateLimiter (FirebaseNotifier.mkConfig None)
  = Some limiter500.
Proof. reflexivity. Qed.

Example limiter50_constructed :
  WebPushNotifier.rateLimiter (WebPushNotifier.mkConfig None) = Some limiter50.
Proof. reflexivity. Qed.

Definition hello : FirebaseNotifier.FirebaseNotificationOptions :=
  FirebaseNotifier.mkOptions (Some "Hello") (Some "World") None None.

Definition hello_push : WebPushNotifier.WebPush :=
  WebPushNotifier.mkMeta (Some "Hello") (Some "World") None None None None.

Definition endpoints : list string :=
  ["https://push.example/1"; "https://push.example/2"; "https://push.example/3"].

(** A request that needs two chunks: 501 tokens, [token-0] to
    [token-500]. *)
Definition tokens501 : list string :=
  (λ i, "token-" +:+ pretty i) <$> seq 0 501.

(** One entry of metadata for each of them, with the titles [title-0] to
    [title-500]. *)
Definition titles501 : list FirebaseNotifier.FirebaseNotificationOptions :=
  (λ i, FirebaseNotifier.mkOptions (Some ("title-" +:+ pretty i)) None None None)
    <$> seq 0 501.

End Examples.

(** Three runs. *)

Example chunkArray_5_by_2 :
  FirebaseNotifier.chunkArray [1; 2; 3; 4; 5] 2 = [[1; 2]; [3; 4]; [5]].
Proof. reflexivity. Qed.

(** Tokens [a], [b], [c], the transport failing for [b], the calls
    completing in the order [c], [a], [b]. *)
Example batch_run :
  let s :=
    EventLoop.run
      (FirebaseNotifier.step (Examples.messaging_send "b") ["a"; "b"; "c"] None)
      FirebaseNotifier.enabled [(false, 2); (false, 0); (false, 0)]
      (FirebaseNotifier.send ["a"; "b"; "c"] None Examples.limiter500) in
  FirebaseNotifier.main s = FirebaseNotifier.Returned ∧
  FirebaseNotifier.results s
  = [mkResult success (Some "c") (Some "projects/demo/messages/c") None;
     mkResult success (Some "a") (Some "projects/demo/messages/a") None;
     mkResult failed (Some "b") None (Some "Requested entity was not found.")].
Proof. vm_compute. split; reflexivity. Qed.

(** Three subscriptions, the transport failing for the second, a limiter
    of one unit per interval: the timer fires twice and releases the second
    and the third unit; then the second call completes, the first, and the
    third. *)
Example bounded_run :
  let userIds := Examples.subscription_json <$> Examples.endpoints in
  let s :=
    EventLoop.run
      (WebPushNotifier.step Examples.JSON_parse
         (Examples.sendNotification "https://push.example/2") userIds (Some []))
      WebPushNotifier.enabled
      [(false, 0); (false, 0); (false, 1); (false, 0); (false, 0)]
      (WebPushNotifier.send Examples.JSON_parse userIds (Some [])
         (RateLimiter.mk 1 1 1000 [])) in
  WebPushNotifier.main s = WebPushNotifier.Returned ∧
  WebPushNotifier.results s
  = [mkResult failed (Some "https://push.example/2") None
       (Some "Received unexpected response code");
     mkResult success (Some "https://push.example/1") (Some "201") None;
     mkResult success (Some "https://push.example/3") (Some "201") None].
Proof. vm_compute. split; reflexivity. Qed.

(** ** The properties of the specification *)

(** C1, amended. For every recipient list of length n and every metadata
    list of length m <= n, [send] returns exactly n results, one for each
    recipient, none lost and none twice (the results are, in some order,
    the results of the recipients' own calls): in the batch-oriented
    adapter always, in the concurrency-bounded adapter when every recipient
    identifier decodes to a value other than [null] and no call is
    rejected with [null] or [undefined]. The results are those that
    [send] returns: they are there in every state in which [send] has
    returned. *)
Theorem C1_send_returns_one_result_per_recipient :
  (∀ messaging_send userIds meta rl,
     RateLimiter.idle rl →
     from_option length 0 meta ≤ length userIds →
     FirebaseNotifier.returns messaging_send userIds meta
       (λ s, length (FirebaseNotifier.results s) = length userIds ∧
             FirebaseNotifier.results s
             ≡ₚ FirebaseNotifier.result_of messaging_send meta
                  <$> FirebaseNotifier.plan userIds) rl)
  ∧
  (∀ JSON_parse sendNotification userIds m rl,
     RateLimiter.idle rl →
     length m ≤ length userIds →
     forallb (WebPushNotifier.decodes JSON_parse) userIds = true →
     WebPushNotifier.catch_safe sendNotification m
       (WebPushNotifier.subscriptions JSON_parse userIds) = true →
     WebPushNotifier.returns JSON_parse sendNotification userIds (Some m)
       (λ s, length (WebPushNotifier.results s) = length userIds ∧
             WebPushNotifier.results s
             ≡ₚ WebPushNotifier.task_result sendNotification
                  <$> WebPushNotifier.plan m
                        (WebPushNotifier.subscriptions JSON_parse userIds)) rl).
Proof.
  split.
  - intros messaging_send userIds meta rl Hrl _.
    eapply FirebaseNotifier.fb_returns_impl;
      [|by apply FirebaseNotifier.fb_send_returns].
    intros s (_ & _ & _ & Hres). simpl in Hres. split; [|done].
    by rewrite Hres, length_map, FirebaseNotifier.fb_plan_length.
  - intros JSON_parse sendNotification userIds m rl Hrl _ Hdec Hsafe.
    destruct (WebPushNotifier.decodes_parse_all _ _ Hdec) as (subs & Hparse & Hsubs).
    rewrite (WebPushNotifier.subscriptions_subs _ _ _ Hparse) in *.
    apply WebPushNotifier.catch_safe_plan in Hsafe.
    eapply WebPushNotifier.wp_returns_impl;
      [|by eapply WebPushNotifier.wp_send_returns].
    intros s (_ & _ & Hres). simpl in Hres. split; [|done].
    rewrite Hres, length_map, WebPushNotifier.wp_plan_length.
    by eapply WebPushNotifier.parse_all_length.
Qed.

Lemma C1_witness :
  FirebaseNotifier.returns (Examples.messaging_send "b")
    ["a"; "b"; "c"] (Some [Examples.hello])
    (λ s, length (FirebaseNotifier.results s) = 3 ∧
          FirebaseNotifier.results s
          ≡ₚ FirebaseNotifier.result_of (Examples.messaging_send "b")
               (Some [Examples.hello])
               <$> FirebaseNotifier.plan ["a"; "b"; "c"])
    Examples.limiter500
  ∧
  WebPushNotifier.returns Examples.JSON_parse
    (Examples.sendNotification "https://push.example/2")
    (Examples.subscription_json <$> Examples.endpoints)
    (Some [Examples.hello_push])
    (λ s, length (WebPushNotifier.results s) = 3 ∧
          WebPushNotifier.results s
          ≡ₚ WebPushNotifier.task_result
               (Examples.sendNotification "https://push.example/2")
               <$> WebPushNotifier.plan [Examples.hello_push]
                     (WebPushNotifier.subscriptions Examples.JSON_parse
                        (Examples.subscription_json <$> Examples.endpoints)))
    Examples.limiter50.
Proof.
  split.
  - refine (proj1 C1_send_returns_one_result_per_recipient
              (Examples.messaging_send "b") ["a"; "b"; "c"]
              (Some [Examples.hello]) Examples.limiter500 _ _).
    + split; [reflexivity|simpl; lia].
    + simpl; lia.
  - refine (proj2 C1_send_returns_one_result_per_recipient
              Examples.JSON_parse
              (Examples.sendNotification "https://push.example/2")
              (Examples.subscription_json <$> Examples.endpoints)
              [Examples.hello_push] Examples.limiter50 _ _ _ _).
    + split; [reflexivity|simpl; lia].
    + simpl; lia.
    + vm_compute; reflexivity.
    + vm_compute; reflexivity.
Defined.

(** C1 as stated fails in the concurrency-bounded adapter: with a
    recipient identifier that is not JSON, [send] throws and returns no
    result at all. *)
Lemma C1_counterexample :
  ¬ WebPushNotifier.returns Examples.JSON_parse
      (Examples.sendNotification "none") ["not json"] (Some [])
      (λ s, length (WebPushNotifier.results s) = 1) Examples.limiter50.
Proof.
  intros [Hlive _].
  specialize (Hlive [(false, 0); (false, 0)] ltac:(simpl; lia)).
  vm_compute in Hlive. discriminate.
Qed.

(** Nor does [send] return when a call is rejected with [undefined]: the
    [catch] block of the unit throws at [error.message], the task is
    rejected and [send] throws a TypeError. *)
Lemma rejection_with_undefined_makes_bounded_send_throw :
  let userIds := Examples.subscription_json <$> Examples.endpoints in
  let s := EventLoop.exec
             (WebPushNotifier.step Examples.JSON_parse
                (Examples.sendNotification_with Nullish "https://push.example/2")
                userIds (Some []))
             [EventLoop.Complete 0; EventLoop.Complete 0; EventLoop.Complete 0]
             (WebPushNotifier.send Examples.JSON_parse userIds (Some [])
                Examples.limiter50) in
  WebPushNotifier.main s = WebPushNotifier.Raised WebPushNotifier.TypeError ∧
  length (WebPushNotifier.results s) = 2 ∧
  count_status failed (WebPushNotifier.results s) = 0.
Proof. vm_compute. repeat split; reflexivity. Qed.

(** C2, amended. When the transport fails for exactly one recipient and
    succeeds for the n-1 others, [send] returns (it does not throw) n-1
    results with status success and exactly one with status failed. The
    failed result is the one of the recipient whose call was rejected: it
    has the recipient of that call, no response, and as its error the
    [message] of the value the call was rejected with, which is
    [undefined] when that value has none. The result of each recipient is
    the one computed from the outcome of its own call, whatever happens to
    the others. So it is in the batch-oriented adapter for every request;
    in the concurrency-bounded adapter, when [meta] is there, every
    identifier decodes to a subscription (a value other than [null]) and
    the call is not rejected with [null] or [undefined]. *)
Theorem C2_single_failure_is_isolated :
  (∀ messaging_send userIds meta rl,
     RateLimiter.idle rl →
     rejections (FirebaseNotifier.outcomes messaging_send userIds meta) = 1 →
     FirebaseNotifier.returns messaging_send userIds meta
       (λ s, let rs := FirebaseNotifier.results s in
             count_status success rs = length userIds - 1 ∧
             count_status failed rs = 1 ∧
             (∀ r, r ∈ rs → status r = failed →
                ∃ p reason,
                  p ∈ FirebaseNotifier.plan userIds ∧
                  messaging_send
                    (FirebaseNotifier.message (FirebaseNotifier.call_of meta p))
                    (FirebaseNotifier.dry_run (FirebaseNotifier.call_of meta p))
                  = Rejected reason ∧
                  r = mkResult failed (Some (FirebaseNotifier.p_userId p)) None
                        (reason_message reason)) ∧
             rs ≡ₚ FirebaseNotifier.result_of messaging_send meta
                     <$> FirebaseNotifier.plan userIds) rl)
  ∧
  (∀ JSON_parse sendNotification userIds m rl,
     RateLimiter.idle rl →
     forallb (WebPushNotifier.decodes JSON_parse) userIds = true →
     WebPushNotifier.catch_safe sendNotification m
       (WebPushNotifier.subscriptions JSON_parse userIds) = true →
     rejections (WebPushNotifier.outcomes sendNotification m
                   (WebPushNotifier.subscriptions JSON_parse userIds)) = 1 →
     WebPushNotifier.returns JSON_parse sendNotification userIds (Some m)
       (λ s, let rs := WebPushNotifier.results s in
             count_status success rs = length userIds - 1 ∧
             count_status failed rs = 1 ∧
             (∀ r, r ∈ rs → status r = failed →
                ∃ t reason,
                  t ∈ WebPushNotifier.plan m
                        (WebPushNotifier.subscriptions JSON_parse userIds) ∧
                  WebPushNotifier.outcome_of sendNotification
                    (WebPushNotifier.call_of t)
                  = Rejected reason ∧
                  r = mkResult failed
                        (WebPushNotifier.endpoint_of
                           (WebPushNotifier.task_subscription t))
                        None (reason_message reason)) ∧
             rs ≡ₚ WebPushNotifier.task_result sendNotification
                     <$> WebPushNotifier.plan m
                           (WebPushNotifier.subscriptions JSON_parse userIds)) rl).
Proof.
  split.
  - intros messaging_send userIds meta rl Hrl Hone.
    eapply FirebaseNotifier.fb_returns_impl;
      [|by apply FirebaseNotifier.fb_send_returns].
    intros s (_ & _ & _ & Hres). simpl.
    change (FirebaseNotifier.results s
            ≡ₚ FirebaseNotifier.result_of messaging_send meta
                 <$> FirebaseNotifier.plan userIds) in Hres.
    set (whos := (λ p, (Some (FirebaseNotifier.p_userId p),
                        messaging_send
                          (FirebaseNotifier.message (FirebaseNotifier.call_of meta p))
                          (FirebaseNotifier.dry_run (FirebaseNotifier.call_of meta p))))
                   <$> FirebaseNotifier.plan userIds).
    assert (FirebaseNotifier.result_of messaging_send meta
              <$> FirebaseNotifier.plan userIds
            = (λ x, to_result x.1 x.2) <$> whos) as Hwhos.
    { subst whos. by rewrite <- list_fmap_compose. }
    assert (whos.*2 = FirebaseNotifier.outcomes messaging_send userIds meta) as Hout.
    { subst whos. unfold FirebaseNotifier.outcomes. by rewrite <- list_fmap_compose. }
    pose proof (count_status_total (FirebaseNotifier.results s)) as Htot.
    assert (count_status failed (FirebaseNotifier.results s) = 1) as Hfail.
    { rewrite (count_status_perm _ _ _ Hres), Hwhos, count_failed_to_result.
      by rewrite Hout. }
    assert (length (FirebaseNotifier.results s) = length userIds) as Hlen.
    { by rewrite Hres, length_fmap, FirebaseNotifier.fb_plan_length. }
    repeat split; [lia|done| |done].
    intros r Hr Hst. rewrite Hres, Hwhos in Hr.
    destruct (failed_to_result whos r Hr Hst) as (who & reason & Hin & ->).
    subst whos. apply list_elem_of_fmap in Hin as (p & [= -> Hp] & Hin).
    by exists p, reason.
  - intros JSON_parse sendNotification userIds m rl Hrl Hdec Hsafe Hone.
    destruct (WebPushNotifier.decodes_parse_all _ _ Hdec) as (subs & Hparse & Hsubs).
    assert (WebPushNotifier.subscriptions JSON_parse userIds = subs) as Hsubs'
      by (by apply WebPushNotifier.subscriptions_subs).
    rewrite Hsubs' in *.
    apply WebPushNotifier.catch_safe_plan in Hsafe.
    eapply WebPushNotifier.wp_returns_impl;
      [|by eapply WebPushNotifier.wp_send_returns].
    intros s (_ & _ & Hres). simpl.
    change (WebPushNotifier.results s
            ≡ₚ WebPushNotifier.task_result sendNotification
                 <$> WebPushNotifier.plan m subs) in Hres.
    set (whos := (λ t, (WebPushNotifier.endpoint_of (WebPushNotifier.task_subscription t),
                        WebPushNotifier.outcome_of sendNotification
                          (WebPushNotifier.call_of t)))
                   <$> WebPushNotifier.plan m subs).
    assert (WebPushNotifier.task_result sendNotification
              <$> WebPushNotifier.plan m subs
            = (λ x, to_result x.1 x.2) <$> whos) as Hwhos.
    { subst whos. by rewrite <- list_fmap_compose. }
    assert (whos.*2 = WebPushNotifier.outcomes sendNotification m subs) as Hout.
    { subst whos. unfold WebPushNotifier.outcomes. by rewrite <- list_fmap_compose. }
    pose proof (count_status_total (WebPushNotifier.results s)) as Htot.
    assert (count_status failed (WebPushNotifier.results s) = 1) as Hfail.
    { rewrite (count_status_perm _ _ _ Hres), Hwhos, count_failed_to_result.
      by rewrite Hout. }
    assert (length (WebPushNotifier.results s) = length userIds) as Hlen.
    { rewrite Hres, length_fmap, WebPushNotifier.wp_plan_length.
      by eapply WebPushNotifier.parse_all_length. }
    repeat split; [lia|done| |done].
    intros r Hr Hst. rewrite Hres, Hwhos in Hr.
    destruct (failed_to_result whos r Hr Hst) as (who & reason & Hin & ->).
    subst whos. apply list_elem_of_fmap in Hin as (t & [= -> Ht] & Hin).
    by exists t, reason.
Qed.

Lemma C2_witness :
  FirebaseNotifier.returns (Examples.messaging_send "b")
    ["a"; "b"; "c"] (Some [Examples.hello])
    (λ s, let rs := FirebaseNotifier.results s in
          count_status success rs = 3 - 1 ∧
          count_status failed rs = 1 ∧
          (∀ r, r ∈ rs → status r = failed →
             ∃ p reason,
               p ∈ FirebaseNotifier.plan ["a"; "b"; "c"] ∧
               Examples.messaging_send "b"
                 (FirebaseNotifier.message
                    (FirebaseNotifier.call_of (Some [Examples.hello]) p))
                 (FirebaseNotifier.dry_run
                    (FirebaseNotifier.call_of (Some [Examples.hello]) p))
               = Rejected reason ∧
               r = mkResult failed (Some (FirebaseNotifier.p_userId p)) None
                     (reason_message reason)) ∧
          rs ≡ₚ FirebaseNotifier.result_of (Examples.messaging_send "b")
                  (Some [Examples.hello])
                  <$> FirebaseNotifier.plan ["a"; "b"; "c"])
    Examples.limiter500
  ∧
  WebPushNotifier.returns Examples.JSON_parse
    (Examples.sendNotification "https://push.example/2")
    (Examples.subscription_json <$> Examples.endpoints)
    (Some [Examples.hello_push])
    (λ s, let rs := WebPushNotifier.results s in
          count_status success rs = 3 - 1 ∧
          count_status failed rs = 1 ∧
          (∀ r, r ∈ rs → status r = failed →
             ∃ t reason,
               t ∈ WebPushNotifier.plan [Examples.hello_push]
                     (WebPushNotifier.subscriptions Examples.JSON_parse
                        (Examples.subscription_json <$> Examples.endpoints)) ∧
               WebPushNotifier.outcome_of
                 (Examples.sendNotification "https://push.example/2")
                 (WebPushNotifier.call_of t)
               = Rejected reason ∧
               r = mkResult failed
                     (WebPushNotifier.endpoint_of
                        (WebPushNotifier.task_subscription t))
                     None (reason_message reason)) ∧
          rs ≡ₚ WebPushNotifier.task_result
                  (Examples.sendNotification "https://push.example/2")
                  <$> WebPushNotifier.plan [Examples.hello_push]
                        (WebPushNotifier.subscriptions Examples.JSON_parse
                           (Examples.subscription_json <$> Examples.endpoints)))
    Examples.limiter50.
Proof.
  split.
  - refine (proj1 C2_single_failure_is_isolated (Examples.messaging_send "b")
              ["a"; "b"; "c"] (Some [Examples.hello]) Examples.limiter500 _ _).
    + split; [reflexivity|simpl; lia].
    + vm_compute; reflexivity.
  - refine (proj2 C2_single_failure_is_isolated Examples.JSON_parse
              (Examples.sendNotification "https://push.example/2")
              (Examples.subscription_json <$> Examples.endpoints)
              [Examples.hello_push] Examples.limiter50 _ _ _ _).
    + split; [reflexivity|simpl; lia].
    + vm_compute; reflexivity.
    + vm_compute; reflexivity.
    + vm_compute; reflexivity.
Defined.

(** C2 as stated fails in the concurrency-bounded adapter. With a valid
    subscription and the identifier [null], the transport fails for
    exactly one recipient, the one that is [null]; the [catch] block of its
    unit throws when it reads [subscription.endpoint], no failed result is
    recorded, and [send] throws instead of returning. *)
Lemma C2_counterexample :
  let userIds := [Examples.subscription_json "https://push.example/1"; "null"] in
  rejections (WebPushNotifier.outcomes (Examples.sendNotification "none") []
                (WebPushNotifier.subscriptions Examples.JSON_parse userIds)) = 1
  ∧
  ¬ WebPushNotifier.returns Examples.JSON_parse
      (Examples.sendNotification "none") userIds (Some [])
      (λ s, count_status success (WebPushNotifier.results s) = 1 ∧
            count_status failed (WebPushNotifier.results s) = 1)
      Examples.limiter50.
Proof.
  split; [vm_compute; reflexivity|].
  intros [Hlive _].
  specialize (Hlive (repeat (false, 0) 4) ltac:(simpl; lia)).
  vm_compute in Hlive. discriminate.
Qed.

(** It fails also with subscriptions that all decode, when the one call
    that fails is rejected with [undefined]: the [catch] block throws at
    [error.message] and [send] throws instead of returning. *)
Lemma rejection_with_undefined_is_not_isolated :
  let userIds := Examples.subscription_json <$> Examples.endpoints in
  let sendNotification :=
    Examples.sendNotification_with Nullish "https://push.example/2" in
  rejections (WebPushNotifier.outcomes sendNotification []
                (WebPushNotifier.subscriptions Examples.JSON_parse userIds)) = 1
  ∧
  ¬ WebPushNotifier.returns Examples.JSON_parse sendNotification userIds
      (Some [])
      (λ s, count_status success (WebPushNotifier.results s) = 2 ∧
            count_status failed (WebPushNotifier.results s) = 1)
      Examples.limiter50.
Proof.
  split; [vm_compute; reflexivity|].
  intros [Hlive _].
  specialize (Hlive (repeat (false, 0) 6) ltac:(simpl; lia)).
  vm_compute in Hlive. discriminate.
Qed.

(** And the failed result carries no error message when the value the
    call was rejected with has none: in the batch-oriented adapter, which
    reads [error?.message], also when that value is [undefined]. *)
Lemma failed_result_without_message :
  let s := EventLoop.exec
             (FirebaseNotifier.step
                (Examples.messaging_send_with Nullish "b") ["a"; "b"; "c"] None)
             [EventLoop.Complete 0; EventLoop.Complete 0; EventLoop.Complete 0]
             (FirebaseNotifier.send ["a"; "b"; "c"] None Examples.limiter500) in
  FirebaseNotifier.main s = FirebaseNotifier.Returned ∧
  FirebaseNotifier.results s
  = [mkResult success (Some "a") (Some "projects/demo/messages/a") None;
     mkResult failed (Some "b") None None;
     mkResult success (Some "c") (Some "projects/demo/messages/c") None].
Proof. vm_compute. split; reflexivity. Qed.

(** The same request at the end of a schedule: the identifier that decodes
    to [null] is not isolated, no failed result is recorded for it, and
    [send] has not returned. *)
Lemma null_subscription_is_not_isolated :
  let userIds := [Examples.subscription_json "https://push.example/1"; "null"] in
  rejections (WebPushNotifier.outcomes (Examples.sendNotification "none") []
                (WebPushNotifier.subscriptions Examples.JSON_parse userIds)) = 1
  ∧
  ¬ WebPushNotifier.always_returns Examples.JSON_parse
      (Examples.sendNotification "none") userIds (Some [])
      (λ s, count_status success (WebPushNotifier.results s) = 1 ∧
            count_status failed (WebPushNotifier.results s) = 1)
      Examples.limiter50.
Proof.
  split; [vm_compute; reflexivity|].
  intros H. destruct (H (repeat (false, 0) 4)) as [Hmain _]; [simpl; lia|].
  vm_compute in Hmain. discriminate.
Qed.

(** Which entry of [meta] each call is built from. In the batch-oriented
    adapter the call for the recipient at position [i] is built from entry
    [i mod 500]; in the concurrency-bounded adapter, from entry [i]. *)
Lemma batch_call_built_from_index_in_chunk messaging_send userIds meta rl :
  RateLimiter.idle rl →
  FirebaseNotifier.always_returns messaging_send userIds meta
    (λ s, ∀ i userId, userIds !! i = Some userId →
       FirebaseNotifier.sent s !! i
       = Some (FirebaseNotifier.build_call userId
                 (meta ≫= (λ m, m !! (i mod 500)))))
    rl.
Proof.
  intros Hrl.
  eapply FirebaseNotifier.fb_always_returns_impl;
    [|by apply FirebaseNotifier.fb_send_always_returns].
  intros s (_ & Hsent & _) i userId Hi. rewrite Hsent.
  by apply FirebaseNotifier.call_at_position.
Qed.

(** In the concurrency-bounded adapter the call for the recipient at
    position [i] is built from entry [i] of [meta], or from the default
    metadata when [meta] has no such entry: so is every call made, in
    every state; and when no call is rejected with [null] or [undefined],
    [send] returns and the call for every recipient has been made. *)
Lemma bounded_call_built_from_position
    JSON_parse sendNotification userIds m rl :
  RateLimiter.idle rl →
  forallb (WebPushNotifier.decodes JSON_parse) userIds = true →
  (∀ trace i c,
     WebPushNotifier.sent
       (EventLoop.exec
          (WebPushNotifier.step JSON_parse sendNotification userIds (Some m))
          trace (WebPushNotifier.send JSON_parse userIds (Some m) rl)) !! i
     = Some c →
     ∃ subscription,
       WebPushNotifier.subscriptions JSON_parse userIds !! i = Some subscription ∧
       c = WebPushNotifier.call_of
             (WebPushNotifier.mkTask i subscription
                (default WebPushNotifier.default_pushMeta (m !! i))))
  ∧
  (WebPushNotifier.catch_safe sendNotification m
     (WebPushNotifier.subscriptions JSON_parse userIds) = true →
   WebPushNotifier.always_returns JSON_parse sendNotification userIds (Some m)
     (λ s, ∀ i subscription,
        WebPushNotifier.subscriptions JSON_parse userIds !! i = Some subscription →
        WebPushNotifier.sent s !! i
        = Some (WebPushNotifier.call_of
                  (WebPushNotifier.mkTask i subscription
                     (default WebPushNotifier.default_pushMeta (m !! i)))))
     rl).
Proof.
  intros Hrl Hdec.
  destruct (WebPushNotifier.decodes_parse_all _ _ Hdec) as (subs & Hparse & Hsubs).
  rewrite (WebPushNotifier.subscriptions_subs _ _ _ Hparse) in *.
  split.
  - intros trace i c Hc.
    pose proof (WebPushNotifier.wp_reachable_Inv_or_raised JSON_parse
                  sendNotification userIds (Some m) m subs eq_refl Hparse rl
                  trace Hrl) as HInv.
    set (s := EventLoop.exec _ _ _) in *.
    assert (∃ k, WebPushNotifier.sent s
                 ++ (WebPushNotifier.call_of
                       <$> RateLimiter.queue (WebPushNotifier.limiter s))
                 = WebPushNotifier.call_of
                     <$> take k (WebPushNotifier.plan m subs)) as [k Hsent].
    { destruct HInv as [(_ & _ & [k Hk])|[(_ & _ & _ & _ & Hk) _]];
        by eexists. }
    apply (lookup_app_l_Some _ (WebPushNotifier.call_of
             <$> RateLimiter.queue (WebPushNotifier.limiter s))) in Hc.
    rewrite Hsent, list_lookup_fmap in Hc.
    destruct (take k (WebPushNotifier.plan m subs) !! i) as [t|] eqn:Ht;
      [|done].
    injection Hc as <-.
    apply lookup_take_Some in Ht as [Ht _].
    unfold WebPushNotifier.plan in Ht. rewrite list_lookup_imap in Ht.
    destruct (subs !! i) as [sub|]; [|done]. injection Ht as <-.
    by exists sub.
  - intros Hsafe. apply WebPushNotifier.catch_safe_plan in Hsafe.
    eapply WebPushNotifier.wp_always_returns_impl;
      [|by eapply WebPushNotifier.wp_send_always_returns].
    intros s (_ & Hsent & _) i sub Hi. rewrite Hsent.
    change (map ?f ?l) with (f <$> l).
    by rewrite list_lookup_fmap, (WebPushNotifier.plan_lookup m subs i sub Hi).
Qed.

(** C3: the code departs from the specification. The callback of [tokens.map]
    reads [meta[index]] with the index of the recipient inside its chunk,
    not in [userIds]. For the 501 tokens with 501 entries of metadata, the
    recipient at position 500, the first of the second chunk, is sent the
    title of entry 0 instead of the title of entry 500, along every
    schedule. *)
Theorem C3_metadata_index_restarts_in_each_chunk :
  FirebaseNotifier.always_returns (Examples.messaging_send "none")
    Examples.tokens501 (Some Examples.titles501)
    (λ s, Examples.titles501 !! 500
            = Some (FirebaseNotifier.mkOptions (Some "title-500") None None None)
          ∧ FirebaseNotifier.sent s !! 500
            = Some (FirebaseNotifier.mkCall
                      (FirebaseNotifier.mkMessage "token-500" "title-0"
                         EmptyString ∅)
                      false))
    Examples.limiter500.
Proof.
  eapply FirebaseNotifier.fb_always_returns_impl;
    [|apply FirebaseNotifier.fb_send_always_returns;
      split; [reflexivity|simpl; lia]].
  intros s (_ & Hsent & _). rewrite Hsent. split; vm_compute; reflexivity.
Qed.

(** C5: the code departs from the specification in the earlier version of the
    adapter. Its filter [(task) => !task.finally] empties the window
    instead of removing the settled tasks. With seven recipients: once the
    first call has completed, [send] schedules the two last recipients and
    six calls are pending; and once the calls of these two have completed,
    [send] returns with three results while four calls are pending. *)
Theorem C5_prior_window_exceeds_ceiling :
  let userIds :=
    Examples.subscription_json
      <$> ["https://push.example/1"; "https://push.example/2";
           "https://push.example/3"; "https://push.example/4";
           "https://push.example/5"; "https://push.example/6";
           "https://push.example/7"] in
  let step :=
    WebPushNotifier_prior.step Examples.JSON_parse
      (λ _ _ _, Resolved "201") userIds (Some []) in
  let init :=
    WebPushNotifier_prior.send Examples.JSON_parse userIds (Some [])
      Examples.limiter50 in
  let s1 := EventLoop.exec step [EventLoop.Complete 0] init in
  let s2 :=
    EventLoop.exec step
      [EventLoop.Complete 0; EventLoop.Complete 4; EventLoop.Complete 4] init in
  length (WebPushNotifier_prior.inflight init) = 5 ∧
  length (WebPushNotifier_prior.inflight s1) = 6 ∧
  WebPushNotifier_prior.maxConcurrentSends = 5 ∧
  WebPushNotifier_prior.main s2 = WebPushNotifier_prior.Returned ∧
  length (WebPushNotifier_prior.inflight s2) = 4 ∧
  length (WebPushNotifier_prior.results s2) = 3.
Proof. vm_compute. repeat split; reflexivity. Qed.

(** The version of WebPushNotifier.ts keeps to the ceiling: in every
    state at most [maxConcurrentSends] calls are pending, and when [send]
    has returned no call is pending and no unit waits in the limiter. *)
Lemma current_window_respects_ceiling
    JSON_parse sendNotification userIds m rl trace :
  RateLimiter.idle rl →
  forallb (WebPushNotifier.decodes JSON_parse) userIds = true →
  let s := EventLoop.exec
             (WebPushNotifier.step JSON_parse sendNotification userIds (Some m))
             trace
             (WebPushNotifier.send JSON_parse userIds (Some m) rl) in
  length (WebPushNotifier.inflight s) ≤ WebPushNotifier.maxConcurrentSends ∧
  (WebPushNotifier.main s = WebPushNotifier.Returned →
   WebPushNotifier.inflight s = [] ∧
   RateLimiter.queue (WebPushNotifier.limiter s) = [] ∧
   length (WebPushNotifier.results s) = length userIds).
Proof.
  intros Hrl Hdec s.
  destruct (WebPushNotifier.decodes_parse_all _ _ Hdec) as (subs & Hparse & Hsubs).
  pose proof (WebPushNotifier.wp_reachable_Inv_or_raised JSON_parse
                sendNotification userIds (Some m) m subs eq_refl Hparse rl
                trace Hrl)
    as HInv.
  fold s in HInv.
  split.
  { destruct HInv as [(_ & Hlen & _)|HInv];
      [|by eapply WebPushNotifier.Inv_ceiling].
    unfold WebPushNotifier.unsettled in Hlen.
    rewrite length_app, !length_map in Hlen. lia. }
  intros Hret.
  destruct HInv as [([e He] & _)|HInv]; [congruence|].
  destruct (WebPushNotifier.Returned_results _ _ _ _ HInv Hret)
    as (? & ? & _ & Hres).
  repeat split; try done.
  rewrite Hres, length_map, WebPushNotifier.wp_plan_length.
  by eapply WebPushNotifier.parse_all_length.
Qed.

(** C8: the code departs from the specification, by the defect of C3. The entry
    of a recipient beyond the first chunk is looked up at its index inside
    the chunk: with 501 tokens and one entry of metadata, the recipient at
    position 500 has no entry, and is sent the title and the body of
    entry 0 instead of the defaults. *)
Theorem C8_defaults_not_used_beyond_first_chunk :
  FirebaseNotifier.always_returns (Examples.messaging_send "none")
    Examples.tokens501 (Some [Examples.hello])
    (λ s, [Examples.hello] !! 500 = None
          ∧ FirebaseNotifier.sent s !! 500
            = Some (FirebaseNotifier.mkCall
                      (FirebaseNotifier.mkMessage "token-500" "Hello" "World" ∅)
                      false))
    Examples.limiter500.
Proof.
  eapply FirebaseNotifier.fb_always_returns_impl;
    [|apply FirebaseNotifier.fb_send_always_returns;
      split; [reflexivity|simpl; lia]].
  intros s (_ & Hsent & _). rewrite Hsent. split; vm_compute; reflexivity.
Qed.

(** C4, amended. In the concurrency-bounded adapter a recipient
    identifier on which [JSON.parse] throws is a failure of the whole
    request: [send] throws the syntax error before its loop; whatever
    happens then, no transport call is made and no result is recorded, for
    this recipient or for any other. *)
Theorem C4_identifier_that_does_not_parse_makes_send_throw :
  ∀ JSON_parse sendNotification userIds meta rl,
    RateLimiter.idle rl →
    forallb (WebPushNotifier.parses JSON_parse) userIds = false →
    ∃ message, ∀ trace,
      let s := EventLoop.exec
                 (WebPushNotifier.step JSON_parse sendNotification userIds meta)
                 trace
                 (WebPushNotifier.send JSON_parse userIds meta rl) in
      WebPushNotifier.main s
        = WebPushNotifier.Raised (WebPushNotifier.SyntaxError message) ∧
      WebPushNotifier.sent s = [] ∧
      WebPushNotifier.results s = [].
Proof.
  intros JSON_parse sendNotification userIds meta rl [Hq _] Hbad.
  destruct (WebPushNotifier.parse_all_throws _ _ Hbad) as [message Hparse].
  exists message. intros trace. unfold WebPushNotifier.send. rewrite Hparse.
  destruct (WebPushNotifier.raised_stable JSON_parse sendNotification userIds
              meta (WebPushNotifier.SyntaxError message) rl trace Hq)
    as (? & _ & ? & ? & _).
  done.
Qed.

Lemma C4_witness :
  ∃ message, ∀ trace,
    let userIds :=
      [Examples.subscription_json "https://push.example/1"; "not json"] in
    let s := EventLoop.exec
               (WebPushNotifier.step Examples.JSON_parse
                  (Examples.sendNotification "none") userIds (Some []))
               trace
               (WebPushNotifier.send Examples.JSON_parse userIds (Some [])
                  Examples.limiter50) in
    WebPushNotifier.main s
      = WebPushNotifier.Raised (WebPushNotifier.SyntaxError message) ∧
    WebPushNotifier.sent s = [] ∧
    WebPushNotifier.results s = [].
Proof.
  apply (C4_identifier_that_does_not_parse_makes_send_throw
           Examples.JSON_parse (Examples.sendNotification "none")
           [Examples.subscription_json "https://push.example/1"; "not json"]
           (Some []) Examples.limiter50).
  - split; [reflexivity|simpl; lia].
  - vm_compute; reflexivity.
Defined.

(** C4 as stated fails: with one subscription and one identifier that is
    not JSON, [send] does not return two results of which one is failed;
    it does not return. *)
Lemma C4_counterexample :
  ¬ WebPushNotifier.always_returns Examples.JSON_parse
      (Examples.sendNotification "none")
      [Examples.subscription_json "https://push.example/1"; "not json"]
      (Some [])
      (λ s, length (WebPushNotifier.results s) = 2 ∧
            count_status failed (WebPushNotifier.results s) = 1)
      Examples.limiter50.
Proof.
  intros H. destruct (H (repeat (false, 0) 4)) as [Hmain _]; [simpl; lia|].
  vm_compute in Hmain. discriminate.
Qed.

(** C6, amended. The recipient fields of the results that [send] returns
    are, as a multiset: in the batch-oriented adapter, the input recipient
    identifiers; in the concurrency-bounded adapter, the [endpoint] of each
    decoded subscription, a value derived from the identifier, when every
    identifier decodes to a value other than [null] and no call is
    rejected with [null] or [undefined]. *)
Theorem C6_recipient_fields :
  (∀ messaging_send userIds meta rl,
     RateLimiter.idle rl →
     FirebaseNotifier.returns messaging_send userIds meta
       (λ s, recipient <$> FirebaseNotifier.results s ≡ₚ Some <$> userIds) rl)
  ∧
  (∀ JSON_parse sendNotification userIds m rl,
     RateLimiter.idle rl →
     forallb (WebPushNotifier.decodes JSON_parse) userIds = true →
     WebPushNotifier.catch_safe sendNotification m
       (WebPushNotifier.subscriptions JSON_parse userIds) = true →
     WebPushNotifier.returns JSON_parse sendNotification userIds (Some m)
       (λ s, recipient <$> WebPushNotifier.results s
             ≡ₚ WebPushNotifier.endpoint_of
                  <$> WebPushNotifier.subscriptions JSON_parse userIds) rl).
Proof.
  split.
  - intros messaging_send userIds meta rl Hrl.
    eapply FirebaseNotifier.fb_returns_impl;
      [|by apply FirebaseNotifier.fb_send_returns].
    intros s (_ & _ & _ & Hres). simpl. rewrite Hres.
    rewrite <- (FirebaseNotifier.plan_userIds userIds) at 2.
    change (map ?f ?l) with (f <$> l). rewrite <- !list_fmap_compose.
    apply reflexive_eq, list_fmap_ext. intros i p _. simpl.
    apply FirebaseNotifier.result_of_recipient.
  - intros JSON_parse sendNotification userIds m rl Hrl Hdec Hsafe.
    destruct (WebPushNotifier.decodes_parse_all _ _ Hdec) as (subs & Hparse & Hsubs).
    rewrite (WebPushNotifier.subscriptions_subs _ _ _ Hparse) in *.
    apply WebPushNotifier.catch_safe_plan in Hsafe.
    eapply WebPushNotifier.wp_returns_impl;
      [|by eapply WebPushNotifier.wp_send_returns].
    intros s (_ & _ & Hres). simpl. rewrite Hres.
    rewrite <- (WebPushNotifier.plan_subscriptions m subs) at 2.
    change (map ?f ?l) with (f <$> l). rewrite <- !list_fmap_compose.
    apply reflexive_eq, list_fmap_ext. intros i t _. simpl.
    apply WebPushNotifier.task_result_recipient.
Qed.

Lemma C6_witness :
  FirebaseNotifier.returns (Examples.messaging_send "b")
    ["a"; "b"; "c"] None
    (λ s, recipient <$> FirebaseNotifier.results s
          ≡ₚ Some <$> ["a"; "b"; "c"]) Examples.limiter500
  ∧
  WebPushNotifier.returns Examples.JSON_parse
    (Examples.sendNotification "https://push.example/2")
    (Examples.subscription_json <$> Examples.endpoints) (Some [])
    (λ s, recipient <$> WebPushNotifier.results s
          ≡ₚ WebPushNotifier.endpoint_of
               <$> WebPushNotifier.subscriptions Examples.JSON_parse
                     (Examples.subscription_json <$> Examples.endpoints))
    Examples.limiter50.
Proof.
  split.
  - refine (proj1 C6_recipient_fields (Examples.messaging_send "b")
              ["a"; "b"; "c"] None Examples.limiter500 _).
    split; [reflexivity|simpl; lia].
  - refine (proj2 C6_recipient_fields Examples.JSON_parse
              (Examples.sendNotification "https://push.example/2")
              (Examples.subscription_json <$> Examples.endpoints) []
              Examples.limiter50 _ _ _).
    + split; [reflexivity|simpl; lia].
    + vm_compute; reflexivity.
    + vm_compute; reflexivity.
Defined.

(** C6 as stated fails in the concurrency-bounded adapter: [send] returns
    with a result whose recipient field is the endpoint, not the serialised
    subscription that was passed in. *)
Lemma C6_counterexample :
  ¬ WebPushNotifier.returns Examples.JSON_parse
      (Examples.sendNotification "none")
      [Examples.subscription_json "https://push.example/1"] (Some [])
      (λ s, recipient <$> WebPushNotifier.results s
            ≡ₚ Some <$> [Examples.subscription_json "https://push.example/1"])
      Examples.limiter50.
Proof.
  intros [_ Hsafe]. specialize (Hsafe [EventLoop.Complete 0]).
  vm_compute in Hsafe. specialize (Hsafe eq_refl).
  apply Permutation_length_1 in Hsafe. discriminate.
Qed.

(** C7, amended. With [meta] absent or strictly shorter than the
    recipient list, [send] completes without raising, with one result for
    each recipient, and missing entries are treated as the defaults, as
    follows. In the batch-oriented adapter the entry of the recipient at
    position [i] is looked up at [i mod 500], its index in its chunk: when
    there is no entry there (so for every missing entry of the first 500
    recipients, and for every recipient when [meta] is absent) the call
    carries the title "Default Notification", an empty body, empty data
    and no dry run; beyond the first chunk a recipient without an entry is
    sent the entry [i mod 500] when [meta] has one (C8). In the
    concurrency-bounded adapter, whose signature requires [meta], when
    [meta] is strictly shorter than the recipient list (every identifier
    decoding to a value other than [null], and no call rejected with
    [null] or [undefined]), each recipient beyond the end of [meta] is
    sent the title "Notification", an empty body, empty data and no
    request options. *)
Theorem C7_short_metadata_is_tolerated :
  (∀ messaging_send userIds meta rl,
     RateLimiter.idle rl →
     from_option (λ m, length m < length userIds) True meta →
     FirebaseNotifier.returns messaging_send userIds meta
       (λ s, length (FirebaseNotifier.results s) = length userIds ∧
             length (FirebaseNotifier.sent s) = length userIds ∧
             ∀ i userId,
               userIds !! i = Some userId →
               from_option (λ m, length m ≤ i mod 500) True meta →
               FirebaseNotifier.sent s !! i
               = Some (FirebaseNotifier.mkCall
                         (FirebaseNotifier.mkMessage userId
                            "Default Notification" EmptyString ∅)
                         false))
       rl)
  ∧
  (∀ JSON_parse sendNotification userIds m rl,
     RateLimiter.idle rl →
     length m < length userIds →
     forallb (WebPushNotifier.decodes JSON_parse) userIds = true →
     WebPushNotifier.catch_safe sendNotification m
       (WebPushNotifier.subscriptions JSON_parse userIds) = true →
     WebPushNotifier.returns JSON_parse sendNotification userIds (Some m)
       (λ s, length (WebPushNotifier.results s) = length userIds ∧
             length (WebPushNotifier.sent s) = length userIds ∧
             ∀ i c, length m ≤ i → WebPushNotifier.sent s !! i = Some c →
               WebPushNotifier.call_payload c
                 = WebPushNotifier.mkPayload "Notification" EmptyString ∅ ∧
               WebPushNotifier.call_options c
                 = WebPushNotifier.mkRequestOptions None None None)
       rl).
Proof.
  split.
  - intros messaging_send userIds meta rl Hrl _.
    eapply FirebaseNotifier.fb_returns_impl;
      [|by apply FirebaseNotifier.fb_send_returns].
    intros s (_ & Hsent & _ & Hres). simpl in *.
    split; [by rewrite Hres, length_map, FirebaseNotifier.fb_plan_length|].
    split; [by rewrite Hsent, length_map, FirebaseNotifier.fb_plan_length|].
    intros i userId Hi Hmissing. rewrite Hsent.
    change (map ?f ?l) with (f <$> l).
    rewrite (FirebaseNotifier.call_at_position userIds meta i userId Hi).
    destruct meta as [m|]; simpl in *; [|done].
    by rewrite lookup_ge_None_2 by done.
  - intros JSON_parse sendNotification userIds m rl Hrl Hshort Hdec Hsafe.
    destruct (WebPushNotifier.decodes_parse_all _ _ Hdec) as (subs & Hparse & Hsubs).
    pose proof (WebPushNotifier.parse_all_length _ _ _ Hparse) as Hlen.
    rewrite (WebPushNotifier.subscriptions_subs _ _ _ Hparse) in *.
    apply WebPushNotifier.catch_safe_plan in Hsafe.
    eapply WebPushNotifier.wp_returns_impl;
      [|by eapply WebPushNotifier.wp_send_returns].
    intros s (_ & Hsent & Hres). simpl in *.
    rewrite Hres, Hsent, !length_map, WebPushNotifier.wp_plan_length.
    split; [done|]. split; [done|]. intros i c Hi Hc.
    change (map ?f ?l) with (f <$> l) in Hc.
    rewrite list_lookup_fmap in Hc.
    unfold WebPushNotifier.plan in Hc. rewrite list_lookup_imap in Hc.
    destruct (subs !! i) as [sub|]; simplify_eq/=.
    by rewrite lookup_ge_None_2 by done.
Qed.

Lemma C7_witness :
  FirebaseNotifier.returns (Examples.messaging_send "b")
    ["a"; "b"; "c"] (Some [Examples.hello])
    (λ s, length (FirebaseNotifier.results s) = 3 ∧
          length (FirebaseNotifier.sent s) = 3 ∧
          ∀ i userId,
            ["a"; "b"; "c"] !! i = Some userId →
            1 ≤ i mod 500 →
            FirebaseNotifier.sent s !! i
            = Some (FirebaseNotifier.mkCall
                      (FirebaseNotifier.mkMessage userId
                         "Default Notification" EmptyString ∅)
                      false))
    Examples.limiter500
  ∧
  WebPushNotifier.returns Examples.JSON_parse
    (Examples.sendNotification "https://push.example/2")
    (Examples.subscription_json <$> Examples.endpoints)
    (Some [Examples.hello_push])
    (λ s, length (WebPushNotifier.results s) = 3 ∧
          length (WebPushNotifier.sent s) = 3 ∧
          ∀ i c, 1 ≤ i → WebPushNotifier.sent s !! i = Some c →
            WebPushNotifier.call_payload c
              = WebPushNotifier.mkPayload "Notification" EmptyString ∅ ∧
            WebPushNotifier.call_options c
              = WebPushNotifier.mkRequestOptions None None None)
    Examples.limiter50.
Proof.
  split.
  - refine (proj1 C7_short_metadata_is_tolerated (Examples.messaging_send "b")
              ["a"; "b"; "c"] (Some [Examples.hello]) Examples.limiter500 _ _).
    + split; [reflexivity|simpl; lia].
    + simpl; lia.
  - refine (proj2 C7_short_metadata_is_tolerated Examples.JSON_parse
              (Examples.sendNotification "https://push.example/2")
              (Examples.subscription_json <$> Examples.endpoints)
              [Examples.hello_push] Examples.limiter50 _ _ _ _).
    + split; [reflexivity|simpl; lia].
    + simpl; lia.
    + vm_compute; reflexivity.
    + vm_compute; reflexivity.
Defined.

(** C7 as stated fails in the concurrency-bounded adapter: without
    [meta], reading [meta[0]] throws and [send] does not return. *)
Lemma C7_counterexample :
  ¬ WebPushNotifier.returns Examples.JSON_parse
      (Examples.sendNotification "none")
      [Examples.subscription_json "https://push.example/1"] None
      (λ _, True) Examples.limiter50.
Proof.
  intros [Hlive _].
  specialize (Hlive (repeat (false, 0) 2) ltac:(simpl; lia)).
  vm_compute in Hlive. discriminate.
Qed.

(** C9. After [register(x, A)] and [register(x, B)], [get(x)] returns B,
    and not A; for a name that was not registered since the registry was
    cleared, [get] fails with an error whose message contains the name. *)
Theorem C9_registry_replaces_and_reports_missing_name :
  ∀ (Channel : Type) (x : string) (A B : Channel)
    (registry : gmap string Channel),
    let registry' :=
      NotifierRegistry.register x B (NotifierRegistry.register x A registry) in
    NotifierRegistry.get x registry' = inr B ∧
    (A ≠ B → NotifierRegistry.get x registry' ≠ inr A) ∧
    ∀ name entries,
      name ∉ entries.*1 →
      ∃ message,
        NotifierRegistry.get name
          (NotifierRegistry.register_all entries
             (NotifierRegistry.clear registry'))
          = inl message ∧
        NotifierRegistry.contains name message.
Proof.
  intros Channel x A B registry registry'.
  assert (NotifierRegistry.get x registry' = inr B) as Hget.
  { unfold NotifierRegistry.get, registry', NotifierRegistry.register.
    by rewrite lookup_insert_eq. }
  split; [done|]. split.
  - rewrite Hget. intros Hne [= ->]. done.
  - intros name entries Hname. apply NotifierRegistry.get_unregistered.
    rewrite NotifierRegistry.register_all_lookup_other by done.
    apply lookup_empty.
Qed.

Lemma C9_witness :
  let registry' :=
    NotifierRegistry.register "dummy" 2
      (NotifierRegistry.register "dummy" 1 (∅ : gmap string nat)) in
  NotifierRegistry.get "dummy" registry' ≠ inr 1 ∧
  ∃ message,
    NotifierRegistry.get "nonexistent"
      (NotifierRegistry.register_all [("dummy", 1); ("other", 2)]
         (NotifierRegistry.clear registry'))
      = inl message ∧
    NotifierRegistry.contains "nonexistent" message.
Proof.
  pose proof (C9_registry_replaces_and_reports_missing_name nat "dummy" 1 2 ∅)
    as (_ & Hnot & Hmissing).
  split.
  - apply Hnot. lia.
  - apply (Hmissing "nonexistent" [("dummy", 1); ("other", 2)]).
    apply (bool_decide_unpack _). vm_compute. exact I.
Defined.

(** C10. The batch-oriented adapter processes its chunks one after the
    other. In every state that events can lead to, at most 500 calls are
    pending; while [send] awaits the unit of chunk c, the pending calls and
    the queued unit are those of chunk c, every result of the chunks before
    c is recorded, and no call of a later chunk has been made. [send]
    returns, and the results it returns are ordered by chunk, those of one
    chunk in any order. *)
Theorem C10_chunks_are_processed_one_after_the_other :
  ∀ messaging_send userIds meta rl,
    RateLimiter.idle rl →
    (∀ trace,
       FirebaseNotifier.one_chunk_at_a_time messaging_send userIds meta
         (EventLoop.exec (FirebaseNotifier.step messaging_send userIds meta)
            trace (FirebaseNotifier.send userIds meta rl)))
    ∧
    FirebaseNotifier.always_returns messaging_send userIds meta
      (λ s, FirebaseNotifier.inflight s = [] ∧
            FirebaseNotifier.chunk_ordered messaging_send meta
              (FirebaseNotifier.units userIds) (FirebaseNotifier.results s))
      rl.
Proof.
  intros messaging_send userIds meta rl Hrl. split.
  - intros trace. apply FirebaseNotifier.Inv_one_chunk_at_a_time.
    by apply FirebaseNotifier.fb_reachable_Inv.
  - eapply FirebaseNotifier.fb_always_returns_impl;
      [|by apply FirebaseNotifier.fb_send_always_returns].
    by intros s (? & _ & ? & _).
Qed.

Lemma C10_witness :
  (∀ trace,
     FirebaseNotifier.one_chunk_at_a_time (Examples.messaging_send "token-7")
       Examples.tokens501 (Some Examples.titles501)
       (EventLoop.exec
          (FirebaseNotifier.step (Examples.messaging_send "token-7")
             Examples.tokens501 (Some Examples.titles501))
          trace
          (FirebaseNotifier.send Examples.tokens501 (Some Examples.titles501)
             Examples.limiter500)))
  ∧
  FirebaseNotifier.always_returns (Examples.messaging_send "token-7")
    Examples.tokens501 (Some Examples.titles501)
    (λ s, FirebaseNotifier.inflight s = [] ∧
          FirebaseNotifier.chunk_ordered (Examples.messaging_send "token-7")
            (Some Examples.titles501)
            (FirebaseNotifier.units Examples.tokens501)
            (FirebaseNotifier.results s))
    Examples.limiter500.
Proof.
  apply (C10_chunks_are_processed_one_after_the_other
           (Examples.messaging_send "token-7") Examples.tokens501
           (Some Examples.titles501) Examples.limiter500).
  split; [reflexivity|simpl; lia].
Defined.

(** ** Further properties of the code *)

(** *** chunkArray *)

Lemma chunk_loop_lookup {T} (array : list T) chunkSize fuel i k :
  0 < chunkSize → length array - i ≤ fuel →
  FirebaseNotifier.chunk_loop fuel array chunkSize i !! k
  = if decide (i + k * chunkSize < length array)
    then Some (take chunkSize (drop (i + k * chunkSize) array))
    else None.
Proof.
  intros Hpos. revert i k. induction fuel as [|fuel IH]; intros i k Hfuel; simpl.
  - rewrite decide_False by lia. done.
  - destruct (Nat.ltb_spec i (length array)) as [Hlt|Hge].
    + destruct k as [|k]; simpl.
      * rewrite Nat.add_0_r, decide_True by lia.
        by rewrite FirebaseNotifier.slice_take_drop.
      * rewrite IH by lia.
        replace (i + chunkSize + k * chunkSize)
          with (i + (chunkSize + k * chunkSize)) by lia.
        done.
    + rewrite decide_False by lia. done.
Qed.

(** The chunk at position [k] is [array.slice(k * chunkSize,
    (k + 1) * chunkSize)], and there is one as long as [k * chunkSize] is
    inside the array. *)
Theorem chunkArray_lookup {T} (array : list T) chunkSize k :
  0 < chunkSize →
  FirebaseNotifier.chunkArray array chunkSize !! k
  = if decide (k * chunkSize < length array)
    then Some (take chunkSize (drop (k * chunkSize) array))
    else None.
Proof.
  intros Hpos. unfold FirebaseNotifier.chunkArray.
  rewrite chunk_loop_lookup by lia. done.
Qed.

Lemma chunkArray_lookup_witness :
  FirebaseNotifier.chunkArray [1; 2; 3; 4; 5] 2 !! 2
  = if decide (2 * 2 < length [1; 2; 3; 4; 5])
    then Some (take 2 (drop (2 * 2) [1; 2; 3; 4; 5]))
    else None.
Proof. apply (chunkArray_lookup [1; 2; 3; 4; 5] 2 2). lia. Defined.

(** No chunk is empty, none is longer than [chunkSize], and every chunk
    but the last holds exactly [chunkSize] elements. *)
Theorem chunkArray_chunk_sizes {T} (array : list T) chunkSize k chunk :
  0 < chunkSize →
  FirebaseNotifier.chunkArray array chunkSize !! k = Some chunk →
  0 < length chunk ≤ chunkSize ∧
  (S k < length (FirebaseNotifier.chunkArray array chunkSize) →
   length chunk = chunkSize).
Proof.
  intros Hpos Hk. rewrite chunkArray_lookup in Hk by done.
  case_decide as Hlt; [|done]. injection Hk as <-.
  rewrite length_take, length_drop. split; [lia|].
  intros Hnext. apply lookup_lt_is_Some_2 in Hnext as [next Hnext].
  rewrite chunkArray_lookup in Hnext by done.
  case_decide as Hlt'; [|done]. simpl in Hlt'. lia.
Qed.

Lemma chunkArray_chunk_sizes_witness :
  0 < length [1; 2] ≤ 2 ∧
  (1 < length (FirebaseNotifier.chunkArray [1; 2; 3; 4; 5] 2) →
   length [1; 2] = 2).
Proof.
  apply (chunkArray_chunk_sizes [1; 2; 3; 4; 5] 2 0 [1; 2]);
    [lia|reflexivity].
Defined.

(** The number of chunks is the length of the array divided by
    [chunkSize], rounded up; an empty array has no chunk. *)
Theorem chunkArray_count {T} (array : list T) chunkSize :
  0 < chunkSize →
  length (FirebaseNotifier.chunkArray array chunkSize)
  = (length array + chunkSize - 1) / chunkSize.
Proof.
  intros Hpos.
  set (n := (length array + chunkSize - 1) / chunkSize).
  assert (n * chunkSize < length array + chunkSize ∧
          length array ≤ n * chunkSize) as [Hlo Hhi].
  { subst n.
    pose proof (Nat.div_mod_eq (length array + chunkSize - 1) chunkSize) as Hdm.
    assert ((length array + chunkSize - 1) mod chunkSize < chunkSize)
      by (apply Nat.mod_upper_bound; lia).
    nia. }
  apply Nat.le_antisymm.
  - apply Nat.nlt_ge. intros Hlt.
    apply lookup_lt_is_Some_2 in Hlt as [chunk Hn].
    rewrite chunkArray_lookup in Hn by done. case_decide; [lia|done].
  - destruct n as [|n']; [lia|]. apply Nat.le_succ_l.
    apply lookup_lt_is_Some. rewrite chunkArray_lookup by done.
    rewrite decide_True; [eauto|]. simpl in *. nia.
Qed.

Lemma chunkArray_count_witness :
  length (FirebaseNotifier.chunkArray [1; 2; 3; 4; 5] 2) = (5 + 2 - 1) / 2.
Proof. apply (chunkArray_count [1; 2; 3; 4; 5] 2). lia. Defined.

(** Chunking loses and moves nothing: the element at position [i] of the
    array is the element at position [i mod chunkSize] of chunk
    [i / chunkSize], and the chunks put end to end are the array. *)
Theorem chunkArray_positions {T} (array : list T) chunkSize :
  0 < chunkSize →
  concat (FirebaseNotifier.chunkArray array chunkSize) = array ∧
  ∀ i, FirebaseNotifier.chunkArray array chunkSize !! (i / chunkSize)
         ≫= (λ chunk, chunk !! (i mod chunkSize))
       = array !! i.
Proof.
  intros Hpos. split; [by apply FirebaseNotifier.chunkArray_concat|].
  intros i. rewrite chunkArray_lookup by done.
  pose proof (Nat.div_mod_eq i chunkSize) as Hdm.
  assert (i mod chunkSize < chunkSize) by (apply Nat.mod_upper_bound; lia).
  case_decide as Hlt; simpl.
  - rewrite lookup_take_lt by lia. rewrite lookup_drop. f_equal. lia.
  - symmetry. apply lookup_ge_None_2. nia.
Qed.

Lemma chunkArray_positions_witness :
  concat (FirebaseNotifier.chunkArray [1; 2; 3; 4; 5] 2) = [1; 2; 3; 4; 5] ∧
  ∀ i, FirebaseNotifier.chunkArray [1; 2; 3; 4; 5] 2 !! (i / 2)
         ≫= (λ chunk, chunk !! (i mod 2))
       = [1; 2; 3; 4; 5] !! i.
Proof. apply (chunkArray_positions [1; 2; 3; 4; 5] 2). lia. Defined.

(** *** Which entry of [meta], which window *)

Lemma batch_call_built_from_index_in_chunk_witness :
  FirebaseNotifier.always_returns (Examples.messaging_send "none")
    Examples.tokens501 (Some Examples.titles501)
    (λ s, ∀ i userId, Examples.tokens501 !! i = Some userId →
       FirebaseNotifier.sent s !! i
       = Some (FirebaseNotifier.build_call userId
                 (Some Examples.titles501 ≫= (λ m, m !! (i mod 500)))))
    Examples.limiter500.
Proof.
  apply (batch_call_built_from_index_in_chunk (Examples.messaging_send "none")
           Examples.tokens501 (Some Examples.titles501) Examples.limiter500).
  split; [reflexivity|simpl; lia].
Defined.

Lemma bounded_call_built_from_position_witness :
  let userIds := Examples.subscription_json <$> Examples.endpoints in
  (∀ trace i c,
     WebPushNotifier.sent
       (EventLoop.exec
          (WebPushNotifier.step Examples.JSON_parse
             (Examples.sendNotification "none") userIds
             (Some [Examples.hello_push]))
          trace
          (WebPushNotifier.send Examples.JSON_parse userIds
             (Some [Examples.hello_push]) Examples.limiter50)) !! i
     = Some c →
     ∃ subscription,
       WebPushNotifier.subscriptions Examples.JSON_parse userIds !! i
         = Some subscription ∧
       c = WebPushNotifier.call_of
             (WebPushNotifier.mkTask i subscription
                (default WebPushNotifier.default_pushMeta
                   ([Examples.hello_push] !! i))))
  ∧
  WebPushNotifier.always_returns Examples.JSON_parse
    (Examples.sendNotification "none") userIds (Some [Examples.hello_push])
    (λ s, ∀ i subscription,
       WebPushNotifier.subscriptions Examples.JSON_parse userIds !! i
         = Some subscription →
       WebPushNotifier.sent s !! i
       = Some (WebPushNotifier.call_of
                 (WebPushNotifier.mkTask i subscription
                    (default WebPushNotifier.default_pushMeta
                       ([Examples.hello_push] !! i)))))
    Examples.limiter50.
Proof.
  destruct (bounded_call_built_from_position Examples.JSON_parse
              (Examples.sendNotification "none")
              (Examples.subscription_json <$> Examples.endpoints)
              [Examples.hello_push] Examples.limiter50) as [Hmade Hreturns].
  - split; [reflexivity|simpl; lia].
  - vm_compute; reflexivity.
  - split; [exact Hmade|]. apply Hreturns. vm_compute; reflexivity.
Defined.

Lemma current_window_respects_ceiling_witness :
  let userIds := Examples.subscription_json <$> Examples.endpoints in
  let s := EventLoop.exec
             (WebPushNotifier.step Examples.JSON_parse
                (Examples.sendNotification "none") userIds (Some []))
             [EventLoop.Complete 1; EventLoop.Tick]
             (WebPushNotifier.send Examples.JSON_parse userIds (Some [])
                Examples.limiter50) in
  length (WebPushNotifier.inflight s) ≤ WebPushNotifier.maxConcurrentSends ∧
  (WebPushNotifier.main s = WebPushNotifier.Returned →
   WebPushNotifier.inflight s = [] ∧
   RateLimiter.queue (WebPushNotifier.limiter s) = [] ∧
   length (WebPushNotifier.results s) = length userIds).
Proof.
  apply (current_window_respects_ceiling Examples.JSON_parse
           (Examples.sendNotification "none")
           (Examples.subscription_json <$> Examples.endpoints) []
           Examples.limiter50 [EventLoop.Complete 1; EventLoop.Tick]).
  - split; [reflexivity|simpl; lia].
  - vm_compute; reflexivity.
Defined.

(** *** Requests at the edges *)

(** With no recipient, [send] returns at once in both adapters: no result,
    no transport call, the limiter untouched. The concurrency-bounded
    adapter does so also without [meta], which it never reads then. *)
Theorem empty_request_returns_at_once :
  (∀ meta rl,
     FirebaseNotifier.send [] meta rl
     = FirebaseNotifier.mkState rl [] [] [] FirebaseNotifier.Returned)
  ∧
  (∀ JSON_parse meta rl,
     WebPushNotifier.send JSON_parse [] meta rl
     = WebPushNotifier.mkState rl [] [] [] [] WebPushNotifier.Returned).
Proof. split; reflexivity. Qed.

Lemma parses_parse_all JSON_parse ids :
  forallb (WebPushNotifier.parses JSON_parse) ids = true →
  ∃ subs, WebPushNotifier.parse_all JSON_parse ids = inr subs ∧
          length subs = length ids.
Proof.
  induction ids as [|id ids IH]; simpl; [by exists []|].
  intros [Hid Hids]%andb_prop. destruct (IH Hids) as (subs & -> & Hlen).
  unfold WebPushNotifier.parses in Hid. destruct (JSON_parse id) as [|v]; [done|].
  exists (v :: subs). simpl. by rewrite Hlen.
Qed.

(** In the concurrency-bounded adapter, a request with at least one
    recipient and without [meta] throws a TypeError at the first iteration
    of the loop, once every identifier has been parsed: no transport call
    is made and no result is recorded, whatever happens then. *)
Theorem bounded_absent_meta_throws
    JSON_parse sendNotification userIds rl trace :
  userIds ≠ [] →
  forallb (WebPushNotifier.parses JSON_parse) userIds = true →
  RateLimiter.queue rl = [] →
  let s := EventLoop.exec
             (WebPushNotifier.step JSON_parse sendNotification userIds None)
             trace (WebPushNotifier.send JSON_parse userIds None rl) in
  WebPushNotifier.main s = WebPushNotifier.Raised WebPushNotifier.TypeError ∧
  WebPushNotifier.sent s = [] ∧
  WebPushNotifier.results s = [].
Proof.
  intros Hne Hparses Hq.
  destruct (parses_parse_all _ _ Hparses) as (subs & Hparse & Hlen).
  unfold WebPushNotifier.send. rewrite Hparse.
  destruct subs as [|sub subs]; [by destruct userIds|]. simpl.
  destruct (WebPushNotifier.raised_stable JSON_parse sendNotification userIds
              None WebPushNotifier.TypeError rl trace Hq)
    as (? & _ & ? & ? & _).
  done.
Qed.

Lemma bounded_absent_meta_throws_witness :
  let userIds := Examples.subscription_json <$> Examples.endpoints in
  let s := EventLoop.exec
             (WebPushNotifier.step Examples.JSON_parse
                (Examples.sendNotification "none") userIds None)
             [EventLoop.Tick; EventLoop.Complete 0]
             (WebPushNotifier.send Examples.JSON_parse userIds None
                Examples.limiter50) in
  WebPushNotifier.main s = WebPushNotifier.Raised WebPushNotifier.TypeError ∧
  WebPushNotifier.sent s = [] ∧
  WebPushNotifier.results s = [].
Proof.
  apply (bounded_absent_meta_throws Examples.JSON_parse
           (Examples.sendNotification "none")
           (Examples.subscription_json <$> Examples.endpoints)
           Examples.limiter50 [EventLoop.Tick; EventLoop.Complete 0]).
  - vm_compute. discriminate.
  - vm_compute; reflexivity.
  - reflexivity.
Defined.

(** The identifiers are parsed from left to right: the error [send]
    throws is the syntax error of the first identifier that does not
    parse, whatever follows it and whether or not [meta] is there. *)
Theorem bounded_first_parse_error_is_thrown
    JSON_parse good bad rest message meta rl :
  forallb (WebPushNotifier.parses JSON_parse) good = true →
  JSON_parse bad = inl message →
  WebPushNotifier.send JSON_parse (good ++ bad :: rest) meta rl
  = WebPushNotifier.mkState rl [] [] [] []
      (WebPushNotifier.Raised (WebPushNotifier.SyntaxError message)).
Proof.
  intros Hgood Hbad. unfold WebPushNotifier.send.
  assert (WebPushNotifier.parse_all JSON_parse (good ++ bad :: rest)
          = inl (WebPushNotifier.SyntaxError message)) as ->; [|done].
  induction good as [|id good IH]; simpl.
  - by rewrite Hbad.
  - simpl in Hgood. apply andb_prop in Hgood as [Hid Hgood].
    unfold WebPushNotifier.parses in Hid.
    destruct (JSON_parse id); [done|]. by rewrite IH.
Qed.

Lemma bounded_first_parse_error_is_thrown_witness :
  WebPushNotifier.send Examples.JSON_parse
    ([Examples.subscription_json "https://push.example/1"]
     ++ "not json" :: ["{"])
    None Examples.limiter50
  = WebPushNotifier.mkState Examples.limiter50 [] [] [] []
      (WebPushNotifier.Raised
         (WebPushNotifier.SyntaxError "Unexpected token in JSON")).
Proof.
  apply (bounded_first_parse_error_is_thrown Examples.JSON_parse
           [Examples.subscription_json "https://push.example/1"]
           "not json" ["{"] "Unexpected token in JSON" None Examples.limiter50).
  - vm_compute; reflexivity.
  - vm_compute; reflexivity.
Defined.

(** *** The calls the transport receives *)

Lemma chunk_calls_tokens meta (us : list FirebaseNotifier.ChunkUnit) :
  (λ c, FirebaseNotifier.token (FirebaseNotifier.message c))
    <$> (us ≫= FirebaseNotifier.chunk_calls meta)
  = concat (FirebaseNotifier.unit_tokens <$> us).
Proof.
  induction us as [|u us IH]; [done|].
  rewrite bind_cons, fmap_app, IH, fmap_cons. simpl. f_equal.
  unfold FirebaseNotifier.chunk_calls.
  change (map ?f ?l) with (f <$> l). rewrite <- list_fmap_compose.
  etrans; [|apply FirebaseNotifier.slots_userIds].
  by apply list_fmap_ext.
Qed.

Lemma take_units_tokens_prefix userIds meta k :
  (λ c, FirebaseNotifier.token (FirebaseNotifier.message c))
    <$> (take k (FirebaseNotifier.units userIds)
           ≫= FirebaseNotifier.chunk_calls meta)
  `prefix_of` userIds.
Proof.
  rewrite chunk_calls_tokens, fmap_take, FirebaseNotifier.units_tokens.
  exists (concat (drop k (FirebaseNotifier.tokensChunks userIds))).
  rewrite <- concat_app, take_drop. symmetry.
  apply FirebaseNotifier.chunkArray_concat. lia.
Qed.

(** The batch-oriented adapter calls the transport with the tokens of
    [userIds], each once and in the order of [userIds]: in every state the
    tokens of the calls made so far are a prefix of [userIds], and when
    [send] returns they are [userIds]. *)
Theorem batch_transport_called_in_recipient_order
    messaging_send userIds meta rl :
  RateLimiter.idle rl →
  (∀ trace,
     (λ c, FirebaseNotifier.token (FirebaseNotifier.message c))
       <$> FirebaseNotifier.sent
             (EventLoop.exec (FirebaseNotifier.step messaging_send userIds meta)
                trace (FirebaseNotifier.send userIds meta rl))
     `prefix_of` userIds)
  ∧
  FirebaseNotifier.always_returns messaging_send userIds meta
    (λ s, (λ c, FirebaseNotifier.token (FirebaseNotifier.message c))
            <$> FirebaseNotifier.sent s = userIds) rl.
Proof.
  intros Hrl. split.
  - intros trace.
    pose proof (FirebaseNotifier.fb_reachable_Inv messaging_send userIds meta
                  rl trace Hrl) as [_ HInv].
    destruct (FirebaseNotifier.main _) as [c|].
    + destruct HInv as (tokens & _ & [(_ & _ & -> & _)|(_ & _ & -> & _)]);
        apply take_units_tokens_prefix.
    + destruct HInv as (_ & _ & -> & _).
      rewrite <- (take_ge (FirebaseNotifier.units userIds)
                    (length (FirebaseNotifier.units userIds))) by done.
      apply take_units_tokens_prefix.
  - eapply FirebaseNotifier.fb_always_returns_impl;
      [|by apply FirebaseNotifier.fb_send_always_returns].
    intros s (_ & -> & _). change (map ?f ?l) with (f <$> l).
    rewrite <- list_fmap_compose.
    etrans; [|apply FirebaseNotifier.plan_userIds].
    by apply list_fmap_ext.
Qed.

Lemma batch_transport_called_in_recipient_order_witness :
  (∀ trace,
     (λ c, FirebaseNotifier.token (FirebaseNotifier.message c))
       <$> FirebaseNotifier.sent
             (EventLoop.exec
                (FirebaseNotifier.step (Examples.messaging_send "b")
                   ["a"; "b"; "c"] None)
                trace
                (FirebaseNotifier.send ["a"; "b"; "c"] None Examples.limiter500))
     `prefix_of` ["a"; "b"; "c"])
  ∧
  FirebaseNotifier.always_returns (Examples.messaging_send "b")
    ["a"; "b"; "c"] None
    (λ s, (λ c, FirebaseNotifier.token (FirebaseNotifier.message c))
            <$> FirebaseNotifier.sent s = ["a"; "b"; "c"])
    Examples.limiter500.
Proof.
  apply (batch_transport_called_in_recipient_order
           (Examples.messaging_send "b") ["a"; "b"; "c"] None
           Examples.limiter500).
  split; [reflexivity|simpl; lia].
Defined.

(** The concurrency-bounded adapter calls the transport with the decoded
    subscriptions, each once and in the order of [userIds], when [meta] is
    there and every identifier decodes to a value other than [null]: the
    subscriptions of the calls made so far are a prefix of the decoded
    subscriptions in every state, also after a unit has thrown; and when no
    call is rejected with [null] or [undefined], [send] returns and they
    are the decoded subscriptions. *)
Theorem bounded_transport_called_in_recipient_order
    JSON_parse sendNotification userIds m rl :
  RateLimiter.idle rl →
  forallb (WebPushNotifier.decodes JSON_parse) userIds = true →
  (∀ trace,
     WebPushNotifier.call_subscription
       <$> WebPushNotifier.sent
             (EventLoop.exec
                (WebPushNotifier.step JSON_parse sendNotification userIds (Some m))
                trace (WebPushNotifier.send JSON_parse userIds (Some m) rl))
     `prefix_of` WebPushNotifier.subscriptions JSON_parse userIds)
  ∧
  (WebPushNotifier.catch_safe sendNotification m
     (WebPushNotifier.subscriptions JSON_parse userIds) = true →
   WebPushNotifier.always_returns JSON_parse sendNotification userIds (Some m)
     (λ s, WebPushNotifier.call_subscription <$> WebPushNotifier.sent s
           = WebPushNotifier.subscriptions JSON_parse userIds) rl).
Proof.
  intros Hrl Hdec.
  destruct (WebPushNotifier.decodes_parse_all _ _ Hdec) as (subs & Hparse & Hsubs).
  rewrite (WebPushNotifier.subscriptions_subs _ _ _ Hparse) in *.
  assert (WebPushNotifier.call_subscription
            <$> (WebPushNotifier.call_of <$> WebPushNotifier.plan m subs)
          = subs) as Hplan.
  { rewrite <- list_fmap_compose.
    etrans; [|apply (WebPushNotifier.plan_subscriptions m subs)].
    by apply list_fmap_ext. }
  split.
  - intros trace.
    pose proof (WebPushNotifier.wp_reachable_Inv_or_raised JSON_parse
                  sendNotification userIds (Some m) m subs eq_refl Hparse rl
                  trace Hrl) as HInv.
    set (s := EventLoop.exec _ _ _) in *.
    assert (∃ i, WebPushNotifier.sent s
                 ++ (WebPushNotifier.call_of
                       <$> RateLimiter.queue (WebPushNotifier.limiter s))
                 = WebPushNotifier.call_of
                     <$> take i (WebPushNotifier.plan m subs)) as [i Hsent].
    { destruct HInv as [(_ & _ & [i Hi])|[(_ & _ & _ & _ & Hi) _]];
        by eexists. }
    exists (WebPushNotifier.call_subscription
              <$> ((WebPushNotifier.call_of
                      <$> RateLimiter.queue (WebPushNotifier.limiter s))
                   ++ (WebPushNotifier.call_of
                         <$> drop i (WebPushNotifier.plan m subs)))).
    rewrite <- fmap_app, app_assoc, Hsent, <- fmap_app, take_drop. done.
  - intros Hsafe. apply WebPushNotifier.catch_safe_plan in Hsafe.
    eapply WebPushNotifier.wp_always_returns_impl;
      [|by eapply WebPushNotifier.wp_send_always_returns].
    by intros s (_ & -> & _).
Qed.

Lemma bounded_transport_called_in_recipient_order_witness :
  let userIds := Examples.subscription_json <$> Examples.endpoints in
  (∀ trace,
     WebPushNotifier.call_subscription
       <$> WebPushNotifier.sent
             (EventLoop.exec
                (WebPushNotifier.step Examples.JSON_parse
                   (Examples.sendNotification "none") userIds (Some []))
                trace
                (WebPushNotifier.send Examples.JSON_parse userIds (Some [])
                   Examples.limiter50))
     `prefix_of` WebPushNotifier.subscriptions Examples.JSON_parse userIds)
  ∧
  WebPushNotifier.always_returns Examples.JSON_parse
    (Examples.sendNotification "none") userIds (Some [])
    (λ s, WebPushNotifier.call_subscription <$> WebPushNotifier.sent s
          = WebPushNotifier.subscriptions Examples.JSON_parse userIds)
    Examples.limiter50.
Proof.
  destruct (bounded_transport_called_in_recipient_order Examples.JSON_parse
              (Examples.sendNotification "none")
              (Examples.subscription_json <$> Examples.endpoints) []
              Examples.limiter50) as [Hprefix Hreturns].
  - split; [reflexivity|simpl; lia].
  - vm_compute; reflexivity.
  - split; [exact Hprefix|]. apply Hreturns. vm_compute; reflexivity.
Defined.

(** *** How many calls the limiter lets through *)

Section BatchBudget.
Import FirebaseNotifier.
Variable messaging_send : Message → bool → Outcome.
Variable userIds : list string.
Variable meta : option (list FirebaseNotificationOptions).
(** The [maxPerInterval] of the adapter's limiter. *)
Variable M : nat.

Definition small (u : ChunkUnit) : Prop := length (unit_tokens u) ≤ 500.

(** The calls made so far and the calls that the available tokens still
    pay for (a token pays for one chunk) are at most [B] together. *)
Definition batch_within (B : nat) (s : State) : Prop :=
  RateLimiter.maxPerInterval (limiter s) = M ∧
  Forall small (RateLimiter.queue (limiter s)) ∧
  500 * RateLimiter.tokens (limiter s) + length (sent s) ≤ B.

Lemma batch_within_mono B B' s :
  B ≤ B' → batch_within B s → batch_within B' s.
Proof. intros ? (? & ? & ?). repeat split; [done..|lia]. Qed.

Lemma batch_within_loop rest c B s :
  Forall (λ chunk : list string, length chunk ≤ 500) rest →
  batch_within B s → batch_within B (loop meta rest c s).
Proof.
  revert c s. induction rest as [|tokens rest IH]; intros c s Hrest HB.
  - done.
  - apply Forall_cons in Hrest as [Htokens Hrest].
    destruct HB as (Hmax & Hq & Hle). simpl. unfold RateLimiter.schedule.
    destruct (RateLimiter.tokens (limiter s)) as [|k] eqn:Hk.
    + repeat split; simpl; [done| |lia].
      apply Forall_app. split; [done|]. by apply Forall_singleton.
    + assert (batch_within B
                (launch meta (mkUnit c tokens)
                   (mkState
                      (RateLimiter.mk k (RateLimiter.maxPerInterval (limiter s))
                         (RateLimiter.intervalMs (limiter s))
                         (RateLimiter.queue (limiter s)))
                      (inflight s) (sent s) (results s) (AwaitChunk c))))
        as HB'.
      { repeat split; simpl; [done..|].
        rewrite length_app, length_map, slots_length. simpl. lia. }
      destruct (unit_done _ _); [by apply IH|done].
Qed.

Lemma batch_within_resume c B s :
  batch_within B s → batch_within B (resume userIds meta c s).
Proof.
  intros HB. unfold resume. destruct (main s) as [c'|]; [|done].
  case_decide; [|done]. apply batch_within_loop; [|done].
  apply Forall_drop, chunkArray_chunk_length.
Qed.

Lemma batch_within_start u B s :
  small u → batch_within B s →
  batch_within (B + 500) (start userIds meta s u).
Proof.
  intros Hu (Hmax & Hq & Hle).
  assert (batch_within (B + 500) (launch meta u s)) as HB.
  { repeat split; simpl; [done..|].
    rewrite length_app, length_map, slots_length. unfold small in Hu. lia. }
  unfold start. destruct (unit_done _ _); [by apply batch_within_resume|done].
Qed.

Lemma batch_within_release released B s :
  Forall small released → batch_within B s →
  batch_within (B + 500 * length released)
    (foldl (start userIds meta) s released).
Proof.
  revert B s. induction released as [|u released IH]; intros B s Hsmall HB.
  - simpl. eapply batch_within_mono; [|done]. lia.
  - apply Forall_cons in Hsmall as [Hu Hsmall]. simpl.
    eapply batch_within_mono; [|apply IH; [done|by apply batch_within_start]].
    simpl. lia.
Qed.

Lemma batch_within_step e B s :
  batch_within B s →
  batch_within (B + 500 * M * EventLoop.ticks [e])
    (step messaging_send userIds meta e s).
Proof.
  intros HB. destruct e as [|j]; simpl.
  - destruct HB as (Hmax & Hq & Hle).
    set (released := take (RateLimiter.maxPerInterval (limiter s))
                       (RateLimiter.queue (limiter s))).
    assert (length released ≤ M) as Hlen.
    { unfold released. rewrite length_take. lia. }
    eapply batch_within_mono;
      [|apply batch_within_release with (B := 500 * (M - length released) + B)].
    + lia.
    + by apply Forall_take.
    + repeat split; simpl; [done|by apply Forall_drop|].
      fold released. rewrite Hmax. lia.
  - eapply batch_within_mono with (B := B); [lia|].
    destruct (inflight s !! j) as [p|]; [|done].
    assert (batch_within B
              (mkState (limiter s) (delete j (inflight s)) (sent s)
                 (results s ++ [result_of messaging_send meta p]) (main s)))
      as HB' by done.
    destruct (unit_done _ _); [by apply batch_within_resume|done].
Qed.

Lemma batch_within_exec trace B s :
  batch_within B s →
  batch_within (B + 500 * M * EventLoop.ticks trace)
    (EventLoop.exec (step messaging_send userIds meta) trace s).
Proof.
  revert B s. induction trace as [|e trace IH]; intros B s HB.
  - simpl. eapply batch_within_mono; [|done]. lia.
  - simpl EventLoop.exec. eapply batch_within_mono;
      [|apply IH, (batch_within_step e), HB].
    destruct e; simpl; lia.
Qed.

Lemma batch_within_send rl :
  RateLimiter.maxPerInterval rl = M → RateLimiter.queue rl = [] →
  batch_within (500 * RateLimiter.tokens rl) (send userIds meta rl).
Proof.
  intros Hmax Hq. apply batch_within_loop; [apply chunkArray_chunk_length|].
  repeat split; simpl; [done| |lia]. rewrite Hq. constructor.
Qed.

End BatchBudget.

Section BoundedBudget.
Import WebPushNotifier.
Variable JSON_parse : string → string + JsValue.
Variable sendNotification : JsValue → Payload → RequestOptions → Outcome.
Variable userIds : list string.
Variable meta : option (list WebPush).
Variable M : nat.

(** The calls made so far and the calls that the available tokens still
    pay for (a token pays for one call) are at most [B] together. *)
Definition bounded_within (B : nat) (s : State) : Prop :=
  RateLimiter.maxPerInterval (limiter s) = M ∧
  RateLimiter.tokens (limiter s) + length (sent s) ≤ B.

Lemma bounded_within_mono B B' s :
  B ≤ B' → bounded_within B s → bounded_within B' s.
Proof. intros ? (? & ?). split; [done|lia]. Qed.

Lemma bounded_within_schedule t B s :
  bounded_within B s → bounded_within B (schedule_task t s).
Proof.
  intros (Hmax & Hle). unfold schedule_task, RateLimiter.schedule.
  destruct (RateLimiter.tokens (limiter s)) as [|k] eqn:Hk.
  - split; simpl; [done|lia].
  - split; simpl; [done|]. rewrite length_app. simpl. lia.
Qed.

Lemma bounded_within_loop rest i tasks B s :
  bounded_within B s → bounded_within B (loop meta rest i tasks s).
Proof.
  revert i tasks s. induction rest as [|subscription rest IH];
    intros i tasks s HB; simpl.
  - by destruct tasks.
  - destruct meta as [m|]; [|done].
    pose proof (bounded_within_schedule
                  (mkTask i subscription (default default_pushMeta (m !! i)))
                  B s HB) as HB'.
    destruct (_ =? _); [done|by apply IH].
Qed.

Lemma bounded_within_resume B s :
  bounded_within B s →
  bounded_within B (resume JSON_parse userIds meta s).
Proof.
  intros HB. unfold resume. destruct (main s); [| |done..].
  - destruct (existsb _ _); [done|].
    destruct (forallb _ _); [by apply bounded_within_loop|done].
  - destruct (existsb _ _); [done|]. by destruct (forallb _ _).
Qed.

Lemma bounded_within_release released B s :
  bounded_within B s →
  bounded_within (B + length released) (foldl launch s released).
Proof.
  revert B s. induction released as [|t released IH]; intros B s HB.
  - simpl. eapply bounded_within_mono; [|done]. lia.
  - simpl. eapply bounded_within_mono with (B := (B + 1) + length released);
      [lia|].
    apply IH. destruct HB as (Hmax & Hle). split; simpl; [done|].
    rewrite length_app. simpl. lia.
Qed.

Lemma bounded_within_step e B s :
  bounded_within B s →
  bounded_within (B + M * EventLoop.ticks [e])
    (step JSON_parse sendNotification userIds meta e s).
Proof.
  intros HB. destruct e as [|j]; simpl.
  - apply bounded_within_resume. destruct HB as (Hmax & Hle).
    set (released := take (RateLimiter.maxPerInterval (limiter s))
                       (RateLimiter.queue (limiter s))).
    assert (length released ≤ M) as Hlen.
    { unfold released. rewrite length_take. lia. }
    eapply bounded_within_mono;
      [|apply bounded_within_release with (B := (M - length released) + B)].
    + lia.
    + split; simpl; [done|]. fold released. rewrite Hmax. lia.
  - eapply bounded_within_mono with (B := B); [lia|].
    destruct (inflight s !! j) as [t|]; [|done].
    apply bounded_within_resume. destruct HB as (Hmax & Hle).
    unfold complete. simpl.
    by destruct (task_subscription t); [|destruct (catch_throws _)].
Qed.

Lemma bounded_within_exec trace B s :
  bounded_within B s →
  bounded_within (B + M * EventLoop.ticks trace)
    (EventLoop.exec (step JSON_parse sendNotification userIds meta) trace s).
Proof.
  revert B s. induction trace as [|e trace IH]; intros B s HB.
  - simpl. eapply bounded_within_mono; [|done]. lia.
  - simpl EventLoop.exec. eapply bounded_within_mono;
      [|apply IH, (bounded_within_step e), HB].
    destruct e; simpl; lia.
Qed.

Lemma bounded_within_send rl :
  RateLimiter.maxPerInterval rl = M →
  bounded_within (RateLimiter.tokens rl) (send JSON_parse userIds meta rl).
Proof.
  intros Hmax. unfold send. destruct (parse_all _ _).
  - split; simpl; [done|lia].
  - apply bounded_within_loop. split; simpl; [done|lia].
Qed.

End BoundedBudget.

(** In the batch-oriented adapter a token of the limiter pays for a whole
    chunk: after any sequence of events the transport has been called at
    most 500 times for each token that was available when [send] was
    called and for each token of each refill. *)
Theorem batch_calls_within_rate messaging_send userIds meta rl trace :
  RateLimiter.queue rl = [] →
  length (FirebaseNotifier.sent
            (EventLoop.exec (FirebaseNotifier.step messaging_send userIds meta)
               trace (FirebaseNotifier.send userIds meta rl)))
  ≤ 500 * (RateLimiter.tokens rl
           + RateLimiter.maxPerInterval rl * EventLoop.ticks trace).
Proof.
  intros Hq.
  pose proof (batch_within_exec messaging_send userIds meta
                (RateLimiter.maxPerInterval rl) trace _ _
                (batch_within_send userIds meta _ rl eq_refl Hq))
    as (_ & _ & Hle).
  lia.
Qed.

Lemma batch_calls_within_rate_witness :
  length (FirebaseNotifier.sent
            (EventLoop.exec
               (FirebaseNotifier.step (Examples.messaging_send "b")
                  ["a"; "b"; "c"] None)
               [EventLoop.Complete 1; EventLoop.Tick]
               (FirebaseNotifier.send ["a"; "b"; "c"] None
                  Examples.limiter500)))
  ≤ 500 * (RateLimiter.tokens Examples.limiter500
           + RateLimiter.maxPerInterval Examples.limiter500
             * EventLoop.ticks [EventLoop.Complete 1; EventLoop.Tick]).
Proof.
  apply (batch_calls_within_rate (Examples.messaging_send "b")
           ["a"; "b"; "c"] None Examples.limiter500
           [EventLoop.Complete 1; EventLoop.Tick]).
  reflexivity.
Defined.

(** In the concurrency-bounded adapter a token of the limiter pays for one
    call: after any sequence of events the transport has been called at
    most once for each token that was available when [send] was called and
    for each token of each refill, whatever the request. *)
Theorem bounded_calls_within_rate
    JSON_parse sendNotification userIds meta rl trace :
  length (WebPushNotifier.sent
            (EventLoop.exec
               (WebPushNotifier.step JSON_parse sendNotification userIds meta)
               trace (WebPushNotifier.send JSON_parse userIds meta rl)))
  ≤ RateLimiter.tokens rl
    + RateLimiter.maxPerInterval rl * EventLoop.ticks trace.
Proof.
  pose proof (bounded_within_exec JSON_parse sendNotification userIds meta
                (RateLimiter.maxPerInterval rl) trace _ _
                (bounded_within_send JSON_parse userIds meta _ rl eq_refl))
    as (_ & Hle).
  lia.
Qed.

(** The bound of the batch-oriented adapter is attained: with one token
    available, [send] calls the transport for the whole first chunk, up to
    500 recipients, before it suspends. *)
Theorem batch_first_token_releases_first_chunk userIds meta rl :
  0 < RateLimiter.tokens rl →
  length (FirebaseNotifier.sent (FirebaseNotifier.send userIds meta rl))
  = length userIds `min` 500.
Proof.
  intros Htok. unfold FirebaseNotifier.send.
  pose proof (chunkArray_lookup userIds 500 0 ltac:(lia)) as Hfirst.
  fold (FirebaseNotifier.tokensChunks userIds) in Hfirst.
  simpl in Hfirst. case_decide as Hlen.
  - destruct (FirebaseNotifier.tokensChunks userIds) as [|tokens rest];
      [done|].
    injection Hfirst as ->. simpl. unfold RateLimiter.schedule. simpl.
    destruct (RateLimiter.tokens rl) as [|k]; [lia|]. simpl.
    destruct userIds as [|userId userIds']; [simpl in Hlen; lia|].
    replace (take 500 (drop 0 (userId :: userIds')))
      with (userId :: take 499 userIds') by done.
    unfold FirebaseNotifier.unit_done, FirebaseNotifier.launch,
      FirebaseNotifier.slots.
    simpl. rewrite length_map, length_imap, length_take. lia.
  - destruct (FirebaseNotifier.tokensChunks userIds) as [|tokens rest];
      [|done].
    simpl. lia.
Qed.

Lemma batch_first_token_releases_first_chunk_witness :
  length (FirebaseNotifier.sent
            (FirebaseNotifier.send Examples.tokens501 None
               Examples.limiter500))
  = length Examples.tokens501 `min` 500.
Proof.
  apply (batch_first_token_releases_first_chunk Examples.tokens501 None
           Examples.limiter500).
  vm_compute. lia.
Defined.

(** *** No call is lost *)

Section BatchAccount.
Import FirebaseNotifier.
Variable messaging_send : Message → bool → Outcome.
Variable userIds : list string.
Variable meta : option (list FirebaseNotificationOptions).

(** Every call made is pending or has its result recorded. *)
Definition batch_accounted (s : State) : Prop :=
  length (sent s) = length (inflight s) + length (results s).

Lemma batch_accounted_launch u s :
  batch_accounted s → batch_accounted (launch meta u s).
Proof.
  unfold batch_accounted. simpl. rewrite !length_app, length_map. lia.
Qed.

Lemma batch_accounted_loop rest c s :
  batch_accounted s → batch_accounted (loop meta rest c s).
Proof.
  revert c s. induction rest as [|tokens rest IH]; intros c s Hs; [done|].
  simpl. unfold RateLimiter.schedule.
  destruct (RateLimiter.tokens (limiter s)); [done|].
  match goal with
  | |- context [unit_done _ (launch meta ?u ?s1)] =>
      assert (batch_accounted (launch meta u s1)) as Hs'
        by (by apply batch_accounted_launch)
  end.
  destruct (unit_done _ _); [by apply IH|done].
Qed.

Lemma batch_accounted_resume c s :
  batch_accounted s → batch_accounted (resume userIds meta c s).
Proof.
  intros Hs. unfold resume. destruct (main s); [|done].
  case_decide; [by apply batch_accounted_loop|done].
Qed.

Lemma batch_accounted_release released s :
  batch_accounted s → batch_accounted (foldl (start userIds meta) s released).
Proof.
  revert s. induction released as [|u released IH]; intros s Hs; [done|].
  simpl. apply IH. unfold start.
  pose proof (batch_accounted_launch u s Hs).
  destruct (unit_done _ _); [by apply batch_accounted_resume|done].
Qed.

Lemma batch_accounted_exec trace s :
  batch_accounted s →
  batch_accounted (EventLoop.exec (step messaging_send userIds meta) trace s).
Proof.
  revert s. induction trace as [|e trace IH]; intros s Hs; [done|].
  simpl. apply IH. destruct e as [|j]; simpl.
  - by apply batch_accounted_release.
  - destruct (inflight s !! j) as [p|] eqn:Hj; [|done].
    assert (batch_accounted
              (mkState (limiter s) (delete j (inflight s)) (sent s)
                 (results s ++ [result_of messaging_send meta p]) (main s)))
      as Hs'.
    { unfold batch_accounted in *. simpl.
      apply lookup_lt_Some in Hj.
      rewrite length_delete, length_app by (by apply lookup_lt_is_Some_2).
      simpl. lia. }
    destruct (unit_done _ _); [by apply batch_accounted_resume|done].
Qed.

End BatchAccount.

Section BoundedAccount.
Import WebPushNotifier.
Variable JSON_parse : string → string + JsValue.
Variable sendNotification : JsValue → Payload → RequestOptions → Outcome.
Variable userIds : list string.
Variable meta : option (list WebPush).

(** Every call made is pending, has its result recorded, or has made its
    unit throw. *)
Definition bounded_accounted (s : State) : Prop :=
  length (sent s)
  = length (inflight s) + length (results s) + length (rejected s).

Lemma bounded_accounted_release released s :
  bounded_accounted s → bounded_accounted (foldl launch s released).
Proof.
  revert s. induction released as [|t released IH]; intros s Hs; [done|].
  simpl. apply IH. unfold bounded_accounted in *. simpl.
  rewrite !length_app. simpl. lia.
Qed.

Lemma bounded_accounted_schedule t s :
  bounded_accounted s → bounded_accounted (schedule_task t s).
Proof.
  intros Hs. unfold schedule_task, RateLimiter.schedule.
  destruct (RateLimiter.tokens (limiter s)); [done|].
  by apply (bounded_accounted_release [t]).
Qed.

Lemma bounded_accounted_loop rest i tasks s :
  bounded_accounted s → bounded_accounted (loop meta rest i tasks s).
Proof.
  revert i tasks s. induction rest as [|subscription rest IH];
    intros i tasks s Hs; simpl.
  - by destruct tasks.
  - destruct meta as [m|]; [|done].
    pose proof (bounded_accounted_schedule
                  (mkTask i subscription (default default_pushMeta (m !! i)))
                  s Hs).
    destruct (_ =? _); [done|by apply IH].
Qed.

Lemma bounded_accounted_resume s :
  bounded_accounted s → bounded_accounted (resume JSON_parse userIds meta s).
Proof.
  intros Hs. unfold resume. destruct (main s); [| |done..].
  - destruct (existsb _ _); [done|].
    destruct (forallb _ _); [by apply bounded_accounted_loop|done].
  - destruct (existsb _ _); [done|]. by destruct (forallb _ _).
Qed.

Lemma bounded_accounted_exec trace s :
  bounded_accounted s →
  bounded_accounted
    (EventLoop.exec (step JSON_parse sendNotification userIds meta) trace s).
Proof.
  revert s. induction trace as [|e trace IH]; intros s Hs; [done|].
  simpl. apply IH. destruct e as [|j]; simpl.
  - by apply bounded_accounted_resume, bounded_accounted_release.
  - destruct (inflight s !! j) as [t|] eqn:Hj; [|done].
    apply bounded_accounted_resume. unfold bounded_accounted in *.
    apply lookup_lt_Some in Hj. unfold complete.
    destruct (task_subscription t); [|destruct (catch_throws _)]; simpl;
      rewrite length_delete, length_app by (by apply lookup_lt_is_Some_2);
      simpl; lia.
Qed.

End BoundedAccount.

(** At any point of any request, every call that the transport has
    received is accounted for: in the batch-oriented adapter it is pending
    or its result is recorded; in the concurrency-bounded adapter it is
    pending, its result is recorded, or its unit has thrown (which is what
    a subscription that is [null], or a call rejected with [null] or
    [undefined], leads to). The results never outnumber the calls. *)
Theorem every_call_is_accounted_for :
  (∀ messaging_send userIds meta rl trace,
     let s := EventLoop.exec (FirebaseNotifier.step messaging_send userIds meta)
                trace (FirebaseNotifier.send userIds meta rl) in
     length (FirebaseNotifier.sent s)
     = length (FirebaseNotifier.inflight s)
       + length (FirebaseNotifier.results s))
  ∧
  (∀ JSON_parse sendNotification userIds meta rl trace,
     let s := EventLoop.exec
                (WebPushNotifier.step JSON_parse sendNotification userIds meta)
                trace (WebPushNotifier.send JSON_parse userIds meta rl) in
     length (WebPushNotifier.sent s)
     = length (WebPushNotifier.inflight s)
       + length (WebPushNotifier.results s)
       + length (WebPushNotifier.rejected s)).
Proof.
  split; intros.
  - apply batch_accounted_exec. by apply batch_accounted_loop.
  - apply bounded_accounted_exec. unfold WebPushNotifier.send.
    destruct (WebPushNotifier.parse_all _ _); [done|].
    by apply bounded_accounted_loop.
Qed.

(** *** The order of the results of the batch-oriented adapter *)

(** The recipients of the results [r] are those of the chunk [chunk], in
    any order. *)
Definition reports (r : list DispatchResult) (chunk : list string) : Prop :=
  recipient <$> r ≡ₚ Some <$> chunk.

Lemma reports_take_concat n rss chunks k :
  Forall2 reports rss chunks →
  Forall (λ chunk : list string, length chunk ≤ n) chunks →
  (∀ j chunk, chunks !! j = Some chunk → S j < length chunks →
     length chunk = n) →
  reports (take (n * k) (concat rss)) (take (n * k) (concat chunks)).
Proof.
  intros H. revert k. induction H as [|r chunk rss chunks Hr Hrest IH];
    intros k Hle Hfull.
  - unfold reports. simpl. by rewrite !take_nil.
  - destruct k as [|k]; [rewrite Nat.mul_0_r; unfold reports; by rewrite !take_0|].
    apply Forall_cons in Hle as [Hchunk Hle].
    assert (length r = length chunk) as Hlen.
    { apply Permutation_length in Hr. by rewrite !length_fmap in Hr. }
    destruct Hrest as [|r' chunk' rss chunks Hr' Hrest].
    + simpl. rewrite !app_nil_r, !take_ge by lia. done.
    + assert (length chunk = n) as Hn
        by (apply (Hfull 0); [done|simpl; lia]).
      simpl concat. replace (n * S k) with (n + n * k) by lia.
      rewrite (take_app_add' r _ n (n * k)), (take_app_add' chunk _ n (n * k))
        by lia.
      unfold reports. rewrite !fmap_app.
      apply Permutation_app; [done|]. apply IH; [done|].
      intros j c Hj Hlt. apply (Hfull (S j)); [done|simpl in *; lia].
Qed.

(** The results that the batch-oriented adapter returns are grouped by
    chunk: [send] returns, and in the results it returns, for every [k],
    the first [500 * k] are those of the first [500 * k] recipients, in any
    order. *)
Theorem batch_results_grouped_by_chunk messaging_send userIds meta rl :
  RateLimiter.idle rl →
  FirebaseNotifier.returns messaging_send userIds meta
    (λ s, ∀ k, recipient <$> take (500 * k) (FirebaseNotifier.results s)
               ≡ₚ Some <$> take (500 * k) userIds)
    rl.
Proof.
  intros Hrl.
  eapply FirebaseNotifier.fb_returns_impl;
    [|by apply FirebaseNotifier.fb_send_returns].
  intros s (_ & _ & (rss & -> & Hrss) & _) k.
  replace (take (500 * k) userIds)
    with (take (500 * k) (concat (FirebaseNotifier.chunkArray userIds 500)))
    by (by rewrite FirebaseNotifier.chunkArray_concat by lia).
  apply reports_take_concat.
  - fold (FirebaseNotifier.tokensChunks userIds).
    rewrite <- (FirebaseNotifier.units_tokens userIds).
    apply Forall2_fmap_r. eapply Forall2_impl; [exact Hrss|].
    intros r u Hr. simpl in Hr. unfold compose, reports. rewrite Hr.
    unfold FirebaseNotifier.chunk_results.
    change (map ?f ?l) with (f <$> l). rewrite <- list_fmap_compose.
    rewrite <- (FirebaseNotifier.slots_userIds u), <- list_fmap_compose.
    apply reflexive_eq, list_fmap_ext. intros i p _. simpl.
    apply FirebaseNotifier.result_of_recipient.
  - apply FirebaseNotifier.chunkArray_chunk_length.
  - intros j chunk Hj Hlt.
    pose proof (chunkArray_lookup userIds 500 j ltac:(lia)) as Hc.
    pose proof (lookup_lt_is_Some_2 _ _ Hlt) as [next Hnext].
    rewrite (chunkArray_lookup userIds 500 (S j)) in Hnext by lia.
    rewrite Hj in Hc. case_decide; [|done]. case_decide; [|done].
    injection Hc as ->. rewrite length_take, length_drop. lia.
Qed.

(** With 501 tokens, in two chunks: the first 500 results that [send]
    returns are those of the first 500 tokens, the last one is the result
    of the token of the second chunk. *)
Lemma batch_results_grouped_by_chunk_witness :
  FirebaseNotifier.returns (Examples.messaging_send "token-7")
    Examples.tokens501 (Some Examples.titles501)
    (λ s, ∀ k, recipient <$> take (500 * k) (FirebaseNotifier.results s)
               ≡ₚ Some <$> take (500 * k) Examples.tokens501)
    Examples.limiter500.
Proof.
  apply (batch_results_grouped_by_chunk (Examples.messaging_send "token-7")
           Examples.tokens501 (Some Examples.titles501) Examples.limiter500).
  split; [reflexivity|simpl; lia].
Defined.
